(** * Verification of the [smart] proxy: the [/proxy] and [/download] handlers

    A shallow embedding of [pages/api/proxy.js] and [pages/api/download.js],
    and the properties their specification claims of them.

    The first part holds the definitions:
    - JavaScript strings are [string]s, sequences of 8-bit code units; the
      [String.prototype] methods the handlers call ([startsWith],
      [endsWith], [includes], [split], ...) are functions of the same name,
      and [parseInt] is modelled with its white space, sign and radix rules;
    - the parsed page is a tree of [node]s, an element carrying its
      attributes as a finite map, and the calls of cheerio the handler makes
      ([$(sel)], [.each], [.attr], [.append]) are functions over paths into
      that tree;
    - a handler is a computation in the monad [M]: it threads the response
      object [res] and the log of the [fetch] calls made, and may throw;
    - what the handlers import (the WHATWG [URL] class, cheerio's parser and
      serialiser, [decodeURIComponent], the origin behind [fetch]) is a
      record [Platform] the handlers are parameterised by;
    - the function [findMedia] of the script the proxy injects is a
      function of what the DOM reports of the page it runs in;
    - a reference model of the [URL] class and a small origin make a
      platform on which the handlers run on concrete requests.

    The second part holds the properties: the lemmas that characterise the
    string primitives, the equivalence of cheerio's element-by-element edits
    with one pass over the tree, each handler case by case, the claims of
    the specification, each either proved, or refuted at a concrete request
    and proved as amended, and last what else the code shows: the exchanges
    of the two handlers row by row, the passes of the rewriter, the file
    name and the size gate of the download, and the probe script. *)

From stdpp Require Import base option list gmap strings.
From Stdlib Require Import Ascii ZArith Lia.

Open Scope string_scope.
Open Scope nat_scope.
Open Scope list_scope.

#[local] Set Warnings "-register-all".

(** ** JavaScript string primitives *)

Module JsString.

(** [s.startsWith(p)] *)
Fixpoint startsWith (s p : string) {struct p} : bool :=
  match p with
  | "" => true
  | String c p' =>
      match s with
      | "" => false
      | String d s' => bool_decide (c = d) && startsWith s' p'
      end
  end.

(** [s.includes(sub)] *)
Fixpoint includes (s sub : string) : bool :=
  startsWith s sub ||
  match s with
  | "" => false
  | String _ s' => includes s' sub
  end.

Fixpoint drop (n : nat) (s : string) : string :=
  match n, s with
  | S n', String _ s' => drop n' s'
  | _, _ => s
  end.

(** [s.endsWith(suf)]: the last [suf.length] characters of [s] are [suf]. *)
Definition endsWith (s suf : string) : bool :=
  let n := String.length s in
  let m := String.length suf in
  bool_decide (m ≤ n) && bool_decide (drop (n - m) s = suf).

(** ASCII lower-casing, the folding a case-insensitive regular expression
    over an ASCII pattern performs: a character outside [A-Z] is kept. *)
Definition lower (c : ascii) : ascii :=
  let n := nat_of_ascii c in
  if bool_decide (65 ≤ n ≤ 90) then ascii_of_nat (n + 32) else c.

Fixpoint toLowerCase (s : string) : string :=
  match s with
  | "" => ""
  | String c s' => String (lower c) (toLowerCase s')
  end.

(** [s.split(sep)] for a one-character separator. *)
Fixpoint split_go (sep : ascii) (cur : string) (s : string) : list string :=
  match s with
  | "" => [String.rev cur]
  | String c s' =>
      if bool_decide (c = sep) then String.rev cur :: split_go sep "" s'
      else split_go sep (String c cur) s'
  end.

Definition split (s : string) (sep : ascii) : list string := split_go sep "" s.

(** [arr.pop()] as an expression: the last element, [undefined] when empty. *)
Definition pop {A} (l : list A) : option A := last l.

(** JavaScript truthiness of a string: only the empty string is falsy. *)
Definition truthy (s : string) : bool := negb (bool_decide (s = "")).

End JsString.

(** ** [parseInt] and the number comparison of [download.js]

    A JavaScript string is modelled as a sequence of 8-bit code units; a
    header value, which the fetch library decodes byte by byte, is exactly
    that.  [parseInt(s)] without a radix skips leading white space, reads a
    sign, switches to radix 16 after [0x], and reads the longest run of
    digits; it is [NaN], here [None], when that run is empty.  The result is
    kept as an exact integer: the handler only compares it with
    [30 * 1024 * 1024], and rounding to a double is monotone and exact at
    that constant and its successor, so the comparison is the same. *)

Module JsNumber.
Import JsString.

Definition is_space (c : ascii) : bool :=
  bool_decide (nat_of_ascii c ∈ [9; 10; 11; 12; 13; 32; 160]).

Fixpoint trim_start (s : string) : string :=
  match s with
  | String c s' => if is_space c then trim_start s' else s
  | "" => ""
  end.

Definition digit_val (radix : Z) (c : ascii) : option Z :=
  let n := Z.of_nat (nat_of_ascii c) in
  let d := if bool_decide (48 ≤ n ≤ 57)%Z then Some (n - 48)%Z
           else if bool_decide (97 ≤ n ≤ 122)%Z then Some (n - 87)%Z
           else if bool_decide (65 ≤ n ≤ 90)%Z then Some (n - 55)%Z
           else None in
  d ≫= λ v, if bool_decide (v < radix)%Z then Some v else None.

(** The longest prefix of radix-[radix] digits, as a number; [None] when
    there is no digit at all. *)
Fixpoint digits_go (radix : Z) (acc : option Z) (s : string) : option Z :=
  match s with
  | "" => acc
  | String c s' =>
      match digit_val radix c with
      | Some d => digits_go radix (Some (default 0 acc * radix + d)%Z) s'
      | None => acc
      end
  end.

Definition parseInt (s : string) : option Z :=
  let s := trim_start s in
  let '(sign, s) :=
    match s with
    | String "-" s' => ((-1)%Z, s')
    | String "+" s' => (1%Z, s')
    | _ => (1%Z, s)
    end in
  let '(radix, s) :=
    if startsWith s "0x" || startsWith s "0X" then (16%Z, drop 2 s) else (10%Z, s) in
  Z.mul sign <$> digits_go radix None s.

(** [x > k] on numbers: false when [x] is [NaN]. *)
Definition gt (x : option Z) (k : Z) : bool :=
  match x with
  | Some v => bool_decide (k < v)%Z
  | None => false
  end.

(** The value of a header the way HTTP writes a length, [1*DIGIT]. *)
Definition is_digit (c : ascii) : bool :=
  bool_decide (48 ≤ nat_of_ascii c ≤ 57).

Fixpoint all_digits (s : string) : bool :=
  match s with
  | "" => true
  | String c s' => is_digit c && all_digits s'
  end.

Fixpoint decimal_go (acc : Z) (s : string) : Z :=
  match s with
  | "" => acc
  | String c s' => decimal_go (acc * 10 + (Z.of_nat (nat_of_ascii c) - 48))%Z s'
  end.

Definition decimal_value (s : string) : Z := decimal_go 0 s.

End JsNumber.

(** ** The parsed page and cheerio's selection API

    [cheerio.load] builds a tree of nodes.  An element carries its tag name
    (lower-cased by the parser), its attributes as the object [attribs], a
    map from names to values, and its children.  An element of the page is
    addressed by the path of child indices that leads to it from the root. *)

Module Dom.

Inductive node : Type :=
| Text (data : string)
| Comment (data : string)
| Directive (data : string)
| Element (name : string) (attribs : gmap string string) (children : list node).

(** The children of the root. *)
Abbreviation document := (list node).
Abbreviation path := (list nat).

Section NodeInduction.
Variable P : node → Prop.
Hypothesis HText : ∀ s, P (Text s).
Hypothesis HComment : ∀ s, P (Comment s).
Hypothesis HDirective : ∀ s, P (Directive s).
Hypothesis HElement : ∀ nm a cs, Forall P cs → P (Element nm a cs).

Fixpoint node_ind' (n : node) : P n :=
  match n with
  | Text s => HText s
  | Comment s => HComment s
  | Directive s => HDirective s
  | Element nm a cs =>
      HElement nm a cs
        ((fix all (l : list node) : Forall P l :=
            match l with
            | [] => @List.Forall_nil _ P
            | c :: l' => @List.Forall_cons _ P c l' (node_ind' c) (all l')
            end) cs)
  end.
End NodeInduction.

(** *** Reading and writing at a path *)

Fixpoint node_at_node (p : path) (n : node) : option node :=
  match p with
  | [] => Some n
  | i :: p' =>
      match n with
      | Element _ _ cs => cs !! i ≫= node_at_node p'
      | _ => None
      end
  end.

Definition node_at (p : path) (d : document) : option node :=
  match p with
  | [] => None
  | i :: p' => d !! i ≫= node_at_node p'
  end.

Fixpoint update_node (p : path) (g : node → node) (n : node) : node :=
  match p with
  | [] => g n
  | i :: p' =>
      match n with
      | Element nm a cs => Element nm a (alter (update_node p' g) i cs)
      | _ => n
      end
  end.

Definition update (p : path) (g : node → node) (d : document) : document :=
  match p with
  | [] => d
  | i :: p' => alter (update_node p' g) i d
  end.

(** *** The calls the handler makes *)

(** The elements below [n] (and [n] itself, as the empty path) whose tag
    name is [sel], in document order. *)
Fixpoint select_node (sel : string) (n : node) : list path :=
  match n with
  | Element nm _ cs =>
      (if decide (nm = sel) then [[]] else []) ++
      (fix go (i : nat) (l : list node) : list path :=
         match l with
         | [] => []
         | c :: l' => (cons i <$> select_node sel c) ++ go (S i) l'
         end) 0 cs
  | _ => []
  end.

Fixpoint select_list (sel : string) (i : nat) (l : list node) : list path :=
  match l with
  | [] => []
  | c :: l' => (cons i <$> select_node sel c) ++ select_list sel (S i) l'
  end.

(** [$(sel)] for a tag-name selector. *)
Definition select (sel : string) (d : document) : list path := select_list sel 0 d.

(** [$(el).attr(name)]: the value, [undefined] when the element has no
    such attribute. *)
Definition attr (d : document) (el : path) (name : string) : option string :=
  match node_at el d with
  | Some (Element _ a _) => a !! name
  | _ => None
  end.

Definition on_attribs (f : gmap string string → gmap string string) (n : node) : node :=
  match n with
  | Element nm a cs => Element nm (f a) cs
  | _ => n
  end.

(** [$(el).attr(name, value)] *)
Definition set_attr (el : path) (name value : string) (d : document) : document :=
  update el (on_attribs (λ a, <[name := value]> a)) d.

(** [$(sel).each(cb)]: [cb] runs on the selected elements in order, each
    run seeing the page as the runs before it left it. *)
Definition each (els : list path) (cb : path → document → document)
    (d : document) : document :=
  fold_left (λ d el, cb el d) els d.

Definition add_children (new : list node) (n : node) : node :=
  match n with
  | Element nm a cs => Element nm a (cs ++ new)
  | _ => n
  end.

(** [$(sel).append(content)], [content] already parsed into nodes: they
    become the last children of every selected element. *)
Definition append (els : list path) (new : list node) (d : document) : document :=
  fold_left (λ d el, update el (add_children new) d) els d.

(** *** The same edits as one pass over the tree

    [transform f x] rewrites the attributes of every element with [f] and
    appends [x] to its children, both chosen by tag name. *)
Fixpoint transform (f : string → gmap string string → gmap string string)
    (x : string → list node) (n : node) : node :=
  match n with
  | Element nm a cs => Element nm (f nm a) ((transform f x <$> cs) ++ x nm)
  | _ => n
  end.

Definition only (sel : string) {A} (v other : A) (nm : string) : A :=
  if decide (nm = sel) then v else other.

End Dom.

(** ** Requests, responses and the handler monad *)

Module Http.
Import JsString.

(** The [url] query parameter of the inbound request, [req.query.url]:
    [undefined] or a string.  A parameter given more than once, which
    Next.js hands over as an array, is outside the model. *)
Record NextApiRequest := { query_url : option string }.

(** The options of one [fetch] call; what the call does not give is absent. *)
Record RequestInit := {
  method : option string;
  init_headers : gmap string string;
  redirect : option string
}.

(** One call of [fetch], as the handler issued it: the URL and the options. *)
Record Call := { call_url : string; call_init : RequestInit }.

(** The characters of a header value: Node.js refuses a value with any
    character outside the tab, U+0020 to U+007E and U+0080 to U+00FF, and
    the fetch library keeps no header of an answer with such a value.  The
    code units above U+00FF, which Node.js refuses too, are not among the
    8-bit code units of the strings here. *)
Definition header_char (c : ascii) : bool :=
  let n := nat_of_ascii c in
  bool_decide (n = 9) || bool_decide (32 ≤ n ≤ 126) || bool_decide (128 ≤ n).

Fixpoint header_value (v : string) : bool :=
  match v with
  | "" => true
  | String c v' => header_char c && header_value v'
  end.

(** [r.body] of an origin response is a stream of one of two kinds: the
    Node.js [Readable] the fetch library of the handlers returns, which has
    [pipe] and no [getReader], or a WHATWG [ReadableStream], which has
    [getReader] and no [pipe].  A stream a reader was taken from is locked. *)
Inductive Stream : Type :=
| NodeReadable
| WebReadable.

#[export] Instance Stream_eq_dec : EqDecision Stream.
Proof. solve_decision. Defined.

Record Body := { stream : Stream; bytes : string; locked : bool }.

(** [typeof b.getReader === 'function'], [typeof b.pipe === 'function'] *)
Definition has_getReader (b : Body) : bool := bool_decide (stream b = WebReadable).

Definition has_pipe (b : Body) : bool := bool_decide (stream b = NodeReadable).

(** An origin response.  [headers] are the headers as the origin sent them,
    names lower-cased; [r.text()] and [r.arrayBuffer()] are [None] when
    reading the body fails. *)
Record Response := {
  ok : bool;
  headers : gmap string string;
  text : option string;
  body : option Body;
  arrayBuffer : option string
}.

(** [r.headers.get(name)]: the header as sent, when the fetch library
    kept it. *)
Definition headers_get (r : Response) (name : string) : option string :=
  match headers r !! toLowerCase name with
  | Some v => if header_value v then Some v else None
  | None => None
  end.

(** The response object [res]: status (200 until set), headers set so far,
    and the body once the response is ended. *)
Record ServerResponse := {
  statusCode : Z;
  out_headers : gmap string string;
  out_body : option string
}.

Definition fresh : ServerResponse :=
  {| statusCode := 200; out_headers := ∅; out_body := None |}.

Record state := { res : ServerResponse; calls : list Call }.

(** A handler step either yields a value or throws; what is thrown is
    never inspected by a [catch] block, so it is not recorded. *)
Inductive outcome (A : Type) : Type :=
| Value (a : A)
| Thrown.
Arguments Value {A} a.
Arguments Thrown {A}.

Definition M (A : Type) : Type := state → outcome A * state.

#[export] Instance M_ret : MRet M := λ A a s, (Value a, s).
#[export] Instance M_bind : MBind M := λ A B f m s,
  match m s with
  | (Value a, s') => f a s'
  | (Thrown, s') => (Thrown, s')
  end.

Definition throw {A} : M A := λ s, (Thrown, s).

(** [try { body } catch (e) { handler }] *)
Definition try_catch {A} (body handler : M A) : M A := λ s,
  match body s with
  | (Value a, s') => (Value a, s')
  | (Thrown, s') => handler s'
  end.

(** A call that may throw, as a step. *)
Definition lift {A} (o : option A) : M A :=
  match o with
  | Some a => mret a
  | None => throw
  end.

Definition modify_res (f : ServerResponse → ServerResponse) : M unit := λ s,
  (Value (), {| res := f (res s); calls := calls s |}).

(** [res.status(code)] *)
Definition status (code : Z) : M unit :=
  modify_res (λ r, {| statusCode := code; out_headers := out_headers r; out_body := out_body r |}).

(** [res.setHeader(name, value)]: throws on a value that is no header
    value, and then sets nothing. *)
Definition setHeader (name value : string) : M unit :=
  if header_value value
  then modify_res (λ r, {| statusCode := statusCode r;
                           out_headers := <[name := value]> (out_headers r);
                           out_body := out_body r |})
  else throw.

(** [res.send(data)], and a body piped or written by [res.end(data)] *)
Definition send (data : string) : M unit :=
  modify_res (λ r, {| statusCode := statusCode r; out_headers := out_headers r;
                      out_body := Some data |}).

(** [res.end()] *)
Definition end_ : M unit := send "".

(** [res.writeHead(code, { name: value })]: the status is set, and then
    the header, which throws as [setHeader] does. *)
Definition writeHead (code : Z) (name value : string) : M unit :=
  status code ;; setHeader name value.

(** [b.getReader()]: a [TypeError] on a stream that has no such method or
    is locked already; otherwise the stream is locked, and is [b] from
    here on. *)
Definition getReader (b : Body) : M Body :=
  if has_getReader b && negb (locked b)
  then mret {| stream := stream b; bytes := bytes b; locked := true |}
  else throw.

(** [await r.arrayBuffer()], [b] being [r.body] as it is now: the promise
    rejects when the body is locked. *)
Definition read_buffer (r : Response) (b : Body) : M string :=
  if locked b then throw else lift (arrayBuffer r).

(** The finished exchange: what the client receives and the outbound calls
    made on the way, oldest first. *)
Definition run (h : M unit) : ServerResponse * list Call :=
  let s := (h {| res := fresh; calls := [] |}).2 in (res s, calls s).

End Http.

(** ** What the handlers import *)

Module Url.
(** The fields of a WHATWG [URL] object the handlers read. *)
Record URL := {
  href : string;
  protocol : string;
  hostname : string;
  pathname : string
}.
End Url.

(** [new_URL input base] is [new URL(input)] or [new URL(input, base)], with
    [None] for the [TypeError] the constructor throws; [cheerio_load] and
    [cheerio_html] are [cheerio.load] and [$.html()]; [decodeURIComponent]
    is [None] for a [URIError]; [origin] answers a [fetch] call, [None] when
    the promise rejects.  The handlers and every theorem about them are
    stated for an arbitrary platform. *)
Record Platform := {
  new_URL : string → option string → option Url.URL;
  cheerio_load : string → Dom.document;
  cheerio_html : Dom.document → string;
  decodeURIComponent : string → option string;
  origin : Http.Call → option Http.Response
}.

Module NodeFetch.
Import Http.

(** [await fetch(url, init)]: the call is logged, then answered by the
    origin; a rejected promise is a throw at the [await]. *)
Definition fetch (P : Platform) (url : string) (init : RequestInit) : M Response := λ s,
  let c := {| call_url := url; call_init := init |} in
  let s' := {| res := res s; calls := calls s ++ [c] |} in
  match origin P c with
  | Some r => (Value r, s')
  | None => (Thrown, s')
  end.

End NodeFetch.

(** ** [pages/api/proxy.js] *)

Module Proxy.
Import JsString Http Dom Url.

(** The text of the injected [<script>] element. *)
Definition probe_js : string := "
(function(){
  function findMedia(){
    const list = [];
    // video tags
    document.querySelectorAll('video').forEach(v => {
      try {
        const src = v.currentSrc || v.src || (v.querySelector('source') && v.querySelector('source').src);
        if (src && src.match(/\.mp4(\?|$)/i)) list.push({url: src, title: (v.getAttribute('title')||document.title||'video')});
      } catch(e){}
    });
    // anchors that link to mp4
    document.querySelectorAll('a').forEach(a=>{
      try {
        const h = a.href;
        if (h && h.match(/\.mp4(\?|$)/i)) list.push({url: h, title: a.innerText.trim() || document.title});
      } catch(e){}
    });
    // dedupe
    const uniq = [];
    const seen = new Set();
    list.forEach(it=>{
      if(!seen.has(it.url)){ seen.add(it.url); uniq.push(it); }
    });
    parent.postMessage({type:'foundMedia', items: uniq}, '*');
  }

  findMedia();
  setTimeout(findMedia, 1500);
  const obs = new MutationObserver(findMedia);
  try { obs.observe(document.body || document.documentElement, {childList:true, subtree:true}); } catch(e){}
})();
".

Definition nl : string := String "010"%char "".

(** The template literal [injected]. *)
Definition injected : string :=
  nl +:+ "<script>" +:+ probe_js +:+ "</script>" +:+ nl +:+ "    ".

(** [injected] as [append] parses it: the script element between two
    runs of white space. *)
Definition injected_dom : list node :=
  [Text nl; Element "script" ∅ [Text probe_js]; Text (nl +:+ "    ")].

(** [/^(data:|mailto:|javascript:|#)/i.test(val)]: some alternative is a
    prefix of [val], letters compared without case. *)
Definition skip_alternatives : list string := ["data:"; "mailto:"; "javascript:"; "#"].

Definition skip_re (val : string) : bool :=
  existsb (λ alt, startsWith (toLowerCase val) (toLowerCase alt)) skip_alternatives.

(** The host test of the first [try] block. *)
Definition local_host (host : string) : bool :=
  bool_decide (host = "localhost") || bool_decide (host = "127.0.0.1")
  || startsWith host "192.168." || endsWith host ".internal".

Definition user_agent : string := "Mozilla/5.0 (compatible; VercelProxy/1.0)".

Section Handler.
Variable P : Platform.

(** [makeAbs(i, elAttr, attr)] with [base] the parsed target. *)
Definition makeAbs (base : URL) (elAttr attr : string) (d : document) : document :=
  each (select elAttr d) (λ el d,
    match Dom.attr d el attr with
    | None => d
    | Some val =>
        if negb (truthy val) then d
        else if skip_re val then d
        else match new_URL P val (Some (href base)) with
             | Some abs => set_attr el attr (href abs) d
             | None => d
             end
    end) d.

(** The six [makeAbs] calls, in the order of the source. *)
Definition absolutize (base : URL) (d : document) : document :=
  let d := makeAbs base "a" "href" d in
  let d := makeAbs base "img" "src" d in
  let d := makeAbs base "script" "src" d in
  let d := makeAbs base "link" "href" d in
  let d := makeAbs base "video" "src" d in
  makeAbs base "source" "src" d.

(** [$('body').append(injected)] *)
Definition inject (d : document) : document :=
  append (select "body" d) injected_dom d.

(** From [cheerio.load(text)] to the argument of [$.html()]. *)
Definition rewrite_page (base : URL) (d : document) : document :=
  inject (absolutize base d).

(** What the callback of [makeAbs] does to the attributes of the element it
    runs on, and what the six calls together do to an element of tag [nm]. *)
Definition abs_attr (base : URL) (attr : string)
    (a : gmap string string) : gmap string string :=
  match a !! attr with
  | None => a
  | Some val =>
      if negb (truthy val) then a
      else if skip_re val then a
      else match new_URL P val (Some (href base)) with
           | Some abs => <[attr := href abs]> a
           | None => a
           end
  end.

Definition abs_attrs (base : URL) (nm : string)
    (a : gmap string string) : gmap string string :=
  let a := only "a" (abs_attr base "href" a) a nm in
  let a := only "img" (abs_attr base "src" a) a nm in
  let a := only "script" (abs_attr base "src" a) a nm in
  let a := only "link" (abs_attr base "href" a) a nm in
  let a := only "video" (abs_attr base "src" a) a nm in
  only "source" (abs_attr base "src" a) a nm.

Definition handler (req : NextApiRequest) : M unit :=
  match query_url req with
  | None => status 400 ;; send "Missing url query parameter"
  | Some target =>
      if negb (truthy target) then status 400 ;; send "Missing url query parameter"
      else
        returned ← try_catch
          (u ← lift (new_URL P target None);
           let host := hostname u in
           if local_host host
           then status 400 ;; send "Local addresses not allowed" ;; mret true
           else mret false)
          (status 400 ;; send "Invalid URL" ;; mret true);
        if returned : bool then mret ()
        else
          try_catch
            (r ← NodeFetch.fetch P target
                   {| method := None;
                      init_headers := {[ "User-Agent" := user_agent ]};
                      redirect := Some "follow" |};
             let contentType := default "" (headers_get r "content-type") in
             text ← lift (Http.text r);
             if negb (includes contentType "text/html")
             then status 302 ;; setHeader "Location" target ;; end_
             else
               let d := cheerio_load P text in
               base ← lift (new_URL P target None);
               let d := rewrite_page base d in
               setHeader "Content-Type" "text/html; charset=utf-8" ;;
               send (cheerio_html P d))
            (status 500 ;; send "Proxy fetch error")
  end.
End Handler.

End Proxy.

(** ** The probe script

    The script the proxy appends to the page runs in the browser.  Its
    function [findMedia] reads the videos and the anchors of the page, keeps
    those whose address matches [/\.mp4(\?|$)/i], drops repeated addresses
    and posts what is left to the parent window.  The page is modelled by
    what the DOM reports of it when the function runs: of a video its
    [currentSrc] and [src], the [src] of its first [source] element and its
    [title] attribute; of an anchor its [href] and [innerText]; and the
    title of the document. *)

Module Probe.
Import JsString JsNumber.

Record Video := {
  currentSrc : string;
  video_src : string;
  source_src : option string;
  title_attr : option string
}.

Record Anchor := { anchor_href : string; innerText : string }.

Record Page := { doc_title : string; videos : list Video; anchors : list Anchor }.

(** An entry of the posted list, [{url, title}]. *)
Record Item := { url : string; title : string }.

(** The pattern matches at the start of [s]: [.mp4] in either case, then a
    question mark or the end of the string. *)
Definition mp4_here (s : string) : bool :=
  startsWith (toLowerCase s) ".mp4"
  && (negb (truthy (drop 4 s)) || startsWith (drop 4 s) "?").

(** [s.match(/\.mp4(\?|$)/i)] is not [null]: the pattern matches somewhere. *)
Fixpoint mp4 (s : string) : bool :=
  mp4_here s ||
  match s with
  | "" => false
  | String _ s' => mp4 s'
  end.

(** [s.trim()] *)
Fixpoint trim_end (s : string) : string :=
  match s with
  | "" => ""
  | String c s' =>
      match trim_end s' with
      | "" => if is_space c then "" else String c ""
      | t => String c t
      end
  end.

Definition trim (s : string) : string := trim_end (trim_start s).

(** [a || b], [a] a string or [null]. *)
Definition or_else (a : option string) (b : string) : string :=
  match a with
  | Some s => if truthy s then s else b
  | None => b
  end.

(** [v.currentSrc || v.src || (v.querySelector('source') &&
    v.querySelector('source').src)]: a string, or [null] when the first two
    are empty and the video has no [source] element. *)
Definition chosen_src (v : Video) : option string :=
  if truthy (currentSrc v) then Some (currentSrc v)
  else if truthy (video_src v) then Some (video_src v)
  else source_src v.

(** What the callback of the first [forEach] pushes for [v]. *)
Definition video_items (doc : string) (v : Video) : list Item :=
  match chosen_src v with
  | Some src =>
      if truthy src && mp4 src
      then [{| url := src; title := or_else (title_attr v) (or_else (Some doc) "video") |}]
      else []
  | None => []
  end.

(** What the callback of the second [forEach] pushes for [a]. *)
Definition anchor_items (doc : string) (a : Anchor) : list Item :=
  let h := anchor_href a in
  if truthy h && mp4 h
  then [{| url := h; title := or_else (Some (trim (innerText a))) doc |}]
  else [].

(** [list] when both loops are through. *)
Definition found (pg : Page) : list Item :=
  (videos pg ≫= video_items (doc_title pg)) ++ (anchors pg ≫= anchor_items (doc_title pg)).

(** One run of the callback of [list.forEach]: [uniq] and [seen] before
    and after. *)
Definition dedupe_step (st : list Item * gset string) (it : Item) :
    list Item * gset string :=
  if decide (url it ∈ st.2) then st else (st.1 ++ [it], {[ url it ]} ∪ st.2).

Definition dedupe (l : list Item) : list Item := (fold_left dedupe_step l ([], ∅)).1.

(** What every run of the callback keeps: [seen] holds the addresses of
    [uniq], and [uniq] repeats none. *)
Definition tidy (st : list Item * gset string) : Prop :=
  (∀ u, u ∈ st.2 ↔ u ∈ url <$> st.1) ∧ NoDup (url <$> st.1).

(** The [items] of the message [findMedia] posts. *)
Definition findMedia (pg : Page) : list Item := dedupe (found pg).

End Probe.

(** ** [pages/api/download.js] *)

Module Download.
Import JsString JsNumber Http Url.

(** The host test of [download.js]. *)
Definition local_host (host : string) : bool :=
  bool_decide (host = "localhost") || bool_decide (host = "127.0.0.1")
  || startsWith host "192.168.".

Definition threshold : Z := 30 * 1024 * 1024.

(** [a || b] on strings that may be [null]. *)
Definition or_else (a : option string) (b : string) : string :=
  match a with
  | Some s => if truthy s then s else b
  | None => b
  end.

(** [cl && parseInt(cl) > 30 * 1024 * 1024], [cl] the header or [null]. *)
Definition over_threshold (cl : option string) : bool :=
  match cl with
  | Some c => truthy c && gt (parseInt c) threshold
  | None => false
  end.

Definition quote : string := String "034"%char "".

Section Handler.
Variable P : Platform.

(** The block that derives the file name; its [catch] keeps ['download']. *)
Definition filename_of (fileUrl : string) : string :=
  let attempt :=
    u ← new_URL P fileUrl None;
    let p := pathname u in
    match pop (split p "/") with
    | Some last => if truthy last then decodeURIComponent P last else Some "download"
    | None => Some "download"
    end in
  default "download" attempt.

Definition handler (req : NextApiRequest) : M unit :=
  match query_url req with
  | None => status 400 ;; send "Missing url"
  | Some fileUrl =>
      if negb (truthy fileUrl) then status 400 ;; send "Missing url"
      else
        try_catch
          (u ← lift (new_URL P fileUrl None);
           if local_host (hostname u)
           then status 400 ;; send "Local addresses not allowed"
           else
             head ← NodeFetch.fetch P fileUrl
                      {| method := Some "HEAD"; init_headers := ∅;
                         redirect := Some "follow" |};
             let cl := headers_get head "content-length" in
             if over_threshold cl
             then writeHead 302 "Location" fileUrl ;; end_
             else
               r ← NodeFetch.fetch P fileUrl
                     {| method := None; init_headers := ∅;
                        redirect := Some "follow" |};
               if negb (ok r) then status 502 ;; send "Failed to fetch file"
               else
                 let filename := filename_of fileUrl in
                 setHeader "Content-Disposition"
                   ("attachment; filename=" +:+ quote +:+ filename +:+ quote) ;;
                 let contentType :=
                   or_else (headers_get r "content-type") "application/octet-stream" in
                 setHeader "Content-Type" contentType ;;
                 (* r.body.getReader(): a TypeError when r.body is null or has
                    no such method, and it locks r.body; new ReadableStream
                    calls start() at once, which reads from the reader and
                    leaves the body locked; the stream built is never used,
                    and nodeStream is null *)
                 b ← lift (body r);
                 b ← getReader b;
                 (* r.body.pipe(res), or the buffered fallback *)
                 if has_pipe b then send (bytes b)
                 else buf ← read_buffer r b; send buf)
          (status 500 ;; send "Download error")
  end.
End Handler.

End Download.

(** ** A reference model of the [URL] class

    The handlers are verified against any [Platform]; to run them on
    concrete requests the scenarios below need a [URL] class that computes.
    [Whatwg.parse] follows the URL Standard's parser and serialiser on the
    inputs it covers and answers [Unmodelled] on the others.  Covered: any
    scheme but [file]; hosts written with letters, digits, [-], [.] and [_]
    (an IPv4 address only in its canonical dotted form); ports; paths,
    queries and fragments made of characters the standard leaves as they
    are; dot segments; opaque paths; and every kind of relative reference.
    Left out: credentials, IPv6 and non-canonical IPv4 hosts,
    internationalised and percent-encoded hosts, backslashes, and every
    character that would be percent-encoded (a per cent sign in a path, a
    query or a fragment stays as it is, and is covered). *)

Module Whatwg.
Import JsString.

Record record := {
  scheme : string;
  host : option string;
  port : option string;
  segments : list string;
  opaque : option string;
  query : option string;
  fragment : option string
}.

Inductive result : Type :=
| Parsed (u : record)
| Failure
| Unmodelled.

Definition code (c : ascii) : nat := nat_of_ascii c.

Definition is_alpha (c : ascii) : bool :=
  bool_decide (65 ≤ code c ≤ 90) || bool_decide (97 ≤ code c ≤ 122).

Definition is_digit (c : ascii) : bool := bool_decide (48 ≤ code c ≤ 57).

Definition is_alnum (c : ascii) : bool := is_alpha c || is_digit c.

Fixpoint all_chars (test : ascii → bool) (s : string) : bool :=
  match s with
  | "" => true
  | String c s' => test c && all_chars test s'
  end.

Fixpoint mem_char (c : ascii) (s : string) : bool :=
  match s with
  | "" => false
  | String d s' => bool_decide (c = d) || mem_char c s'
  end.

(** Leading and trailing C0 controls and spaces are stripped, tabs and
    newlines removed. *)
Fixpoint strip_leading (s : string) : string :=
  match s with
  | String c s' => if bool_decide (code c ≤ 32) then strip_leading s' else s
  | "" => ""
  end.

Fixpoint strip_trailing (s : string) : string :=
  match s with
  | "" => ""
  | String c s' =>
      match strip_trailing s' with
      | "" => if bool_decide (code c ≤ 32) then "" else String c ""
      | t => String c t
      end
  end.

Definition strip (s : string) : string := strip_trailing (strip_leading s).

Fixpoint remove_tab_newline (s : string) : string :=
  match s with
  | "" => ""
  | String c s' =>
      if bool_decide (code c ∈ [9; 10; 13]) then remove_tab_newline s'
      else String c (remove_tab_newline s')
  end.

(** [s] cut at the first of the characters of [stops]: what stands before,
    and what stands from the stop on. *)
Fixpoint cut (stops : string) (s : string) : string * string :=
  match s with
  | "" => ("", "")
  | String c s' =>
      if mem_char c stops then ("", s)
      else let '(a, b) := cut stops s' in (String c a, b)
  end.

(** [s] after its first character, when that is [c]. *)
Definition after (c : ascii) (s : string) : option string :=
  match s with
  | String d s' => if bool_decide (c = d) then Some s' else None
  | "" => None
  end.

(** The scheme of [s] and what follows its colon, when [s] has a scheme. *)
Definition split_scheme (s : string) : option (string * string) :=
  match s with
  | String c _ =>
      if is_alpha c then
        match cut ":" s with
        | (sch, String _ rest) =>
            if all_chars (λ d, is_alnum d || mem_char d "+-.") sch
            then Some (toLowerCase sch, rest) else None
        | _ => None
        end
      else None
  | "" => None
  end.

Definition default_port (sch : string) : option string :=
  if bool_decide (sch = "http") then Some "80"
  else if bool_decide (sch = "https") then Some "443"
  else if bool_decide (sch = "ftp") then Some "21"
  else if bool_decide (sch = "ws") then Some "80"
  else if bool_decide (sch = "wss") then Some "443"
  else None.

Definition special (sch : string) : bool :=
  bool_decide (sch = "file") || bool_decide (is_Some (default_port sch)).

(** Characters no percent-encode set touches and no state treats
    specially; the per cent sign is one, whatever follows it. *)
Definition plain (c : ascii) : bool := is_alnum c || mem_char c "-._~!$&()*+,;=:@%".

Definition printable (c : ascii) : bool := bool_decide (33 ≤ code c ≤ 126).

Fixpoint strip_zeros (s : string) : string :=
  match s with
  | String "0" s' => strip_zeros s'
  | _ => s
  end.

(** A port: its digits without leading zeros, [None] above 65535. *)
Definition port_number (s : string) : option string :=
  let n := JsNumber.decimal_value s in
  if bool_decide (n ≤ 65535)%Z
  then Some (match strip_zeros s with "" => "0" | t => t end)
  else None.

Definition canonical_ipv4_part (l : string) : bool :=
  all_chars is_digit l && truthy l
  && (bool_decide (l = "0") || negb (startsWith l "0"))
  && bool_decide (JsNumber.decimal_value l ≤ 255)%Z
  && bool_decide (String.length l ≤ 3).

(** The label that decides whether a host is an IPv4 address: the last one,
    or the one before a final dot. *)
Definition deciding_label (labels : list string) : string :=
  match reverse labels with
  | "" :: l :: _ => l
  | l :: _ => l
  | [] => ""
  end.

Definition numeric_label (l : string) : bool :=
  (truthy l && all_chars is_digit l) || startsWith (toLowerCase l) "0x".

Inductive host_result : Type :=
| Host (h : string)
| HostFailure
| HostUnmodelled.

#[export] Instance host_result_eq_dec : EqDecision host_result.
Proof. solve_decision. Defined.

Definition parse_host (sch : string) (h : string) : host_result :=
  if special sch then
    if negb (truthy h) then HostFailure
    else if negb (all_chars (λ c, is_alnum c || mem_char c "-._") h) then HostUnmodelled
    else
      let h := toLowerCase h in
      let labels := split h "." in
      if existsb (λ l, startsWith l "xn--") labels then HostUnmodelled
      else if numeric_label (deciding_label labels) then
        if bool_decide (length labels = 4) && forallb canonical_ipv4_part labels
        then Host h else HostUnmodelled
      else Host h
  else
    if all_chars (λ c, is_alnum c || mem_char c "-._~!$&'()*+,;=") h
    then Host h else HostUnmodelled.

Definition shorten (p : list string) : list string := removelast p.

(** The dot segments, a dot written as it is or as [%2e], in either case. *)
Definition single_dot (s : string) : bool :=
  bool_decide (toLowerCase s ∈ ["."; "%2e"]).

Definition double_dot (s : string) : bool :=
  bool_decide (toLowerCase s ∈ [".."; ".%2e"; "%2e."; "%2e%2e"]).

(** The path state, one segment at a time: a double dot drops the last
    segment, a single dot is dropped, and either leaves an empty segment
    when it ends the path. *)
Fixpoint walk (acc : list string) (segs : list string) : list string :=
  match segs with
  | [] => acc
  | [s] =>
      if double_dot s then shorten acc ++ [""]
      else if single_dot s then acc ++ [""]
      else acc ++ [s]
  | s :: rest =>
      if double_dot s then walk (shorten acc) rest
      else if single_dot s then walk acc rest
      else walk (acc ++ [s]) rest
  end.

(** What follows the path: [?query] and [#fragment]. *)
Definition query_fragment (s : string) : option string * option string :=
  let '(q, f) := cut "#" s in (after "?" q, after "#" f).

(** The path, query and fragment are made of characters the parser leaves
    as they are. *)
Definition tail_modelled (s : string) : bool :=
  let '(p, rest) := cut "?#" s in
  let '(q, f) := query_fragment rest in
  all_chars (λ c, plain c || mem_char c "/") p
  && all_chars (λ c, plain c || mem_char c "/?") (default "" q)
  && all_chars (λ c, plain c || mem_char c "/?#") (default "" f).

(** A hierarchical URL from its parts: [s] is the path, query and fragment,
    [start] the segments the path is walked from when [s] does not begin
    with a slash. *)
Definition with_path (sch : string) (h : option string) (pt : option string)
    (start : list string) (s : string) : result :=
  if negb (tail_modelled s) then Unmodelled
  else
    let '(p, rest) := cut "?#" s in
    let '(q, f) := query_fragment rest in
    let segs :=
      if negb (truthy p) then (if special sch then walk start [""] else start)
      else
        match after "/" p with
        | Some p' => walk [] (split p' "/")
        | None => walk start (split p "/")
        end in
    Parsed {| scheme := sch; host := h; port := pt; segments := segs;
              opaque := None; query := q; fragment := f |}.

(** The authority state and what follows it.  A colon after an empty host
    is a failure, whatever the scheme. *)
Definition authority (sch : string) (s : string) : result :=
  let '(auth, rest) := cut "/?#" s in
  if mem_char "@"%char auth || mem_char "["%char auth || mem_char "\"%char s then Unmodelled
  else
    let '(h, pt) := cut ":" auth in
    if negb (truthy h) && truthy pt then Failure
    else
    match parse_host sch h with
    | HostFailure => Failure
    | HostUnmodelled => Unmodelled
    | Host h =>
        let digits := default "" (after ":" pt) in
        if negb (truthy digits) then with_path sch (Some h) None [] rest
        else if all_chars is_digit digits then
          match port_number digits with
          | Some n =>
              with_path sch (Some h)
                (if bool_decide (default_port sch = Some n) then None else Some n)
                [] rest
          | None => Failure
          end
        else Failure
    end.

Fixpoint skip_slashes (s : string) : string :=
  match s with
  | String "/" s' => skip_slashes s'
  | _ => s
  end.

(** The relative state: [s] has no scheme of its own (or that of the
    base), and [b] is the base. *)
Definition relative (b : record) (s : string) : result :=
  let sch := scheme b in
  if mem_char "\"%char s then Unmodelled
  else if startsWith s "//" then
    authority sch (if special sch then skip_slashes s else drop 2 s)
  else if startsWith s "/" then with_path sch (host b) (port b) [] s
  else if negb (tail_modelled s) then Unmodelled
  else
    let '(p, rest) := cut "?#" s in
    let '(q, f) := query_fragment rest in
    if truthy p then with_path sch (host b) (port b) (shorten (segments b)) s
    else
      Parsed {| scheme := sch; host := host b; port := port b;
                segments := segments b; opaque := None;
                query := if startsWith rest "?" then q else query b;
                fragment := f |}.

(** The parser on an input that is already stripped, [b] the parsed base. *)
Definition parse_with (b : option record) (s : string) : result :=
  match split_scheme s with
  | None =>
      match b with
      | None => Failure
      | Some b =>
          match opaque b with
          | Some o =>
              match after "#" s with
              | Some f =>
                  if all_chars (λ c, plain c || mem_char c "/?#") f
                  then Parsed {| scheme := scheme b; host := host b; port := port b;
                                 segments := segments b; opaque := Some o;
                                 query := query b; fragment := Some f |}
                  else Unmodelled
              | None => Failure
              end
          | None => if bool_decide (scheme b = "file") then Unmodelled else relative b s
          end
      end
  | Some (sch, rest) =>
      if bool_decide (sch = "file") then Unmodelled
      else if special sch then
        match b with
        | Some b' =>
            if bool_decide (scheme b' = sch) && negb (startsWith rest "//")
            then relative b' rest
            else authority sch (skip_slashes rest)
        | None => authority sch (skip_slashes rest)
        end
      else if startsWith rest "//" then authority sch (drop 2 rest)
      else if startsWith rest "/" then with_path sch None None [] rest
      else
        let '(p, tail) := cut "?#" rest in
        let '(q, f) := query_fragment tail in
        if all_chars printable p
           && all_chars (λ c, plain c || mem_char c "/?") (default "" q)
           && all_chars (λ c, plain c || mem_char c "/?#") (default "" f)
        then Parsed {| scheme := sch; host := None; port := None; segments := [];
                       opaque := Some p; query := q; fragment := f |}
        else Unmodelled
  end.

Definition clean (input : string) : string := remove_tab_newline (strip input).

(** [new URL(input)] and [new URL(input, base)]. *)
Definition parse (input : string) (base : option string) : result :=
  match base with
  | None => parse_with None (clean input)
  | Some b =>
      match parse_with None (clean b) with
      | Parsed b' => parse_with (Some b') (clean input)
      | other => other
      end
  end.

(** The path of a list of segments. *)
Definition path_of (segs : list string) : string :=
  foldr (λ seg acc, "/" +:+ seg +:+ acc) "" segs.

Definition path_string (u : record) : string :=
  match opaque u with
  | Some o => o
  | None => path_of (segments u)
  end.

Definition port_string (pt : option string) : string :=
  match pt with Some n => ":" +:+ n | None => "" end.

(** The host and port, or the [/.] that keeps a path beginning with two
    slashes from reading as a host. *)
Definition authority_string (u : record) : string :=
  match host u with
  | Some h => "//" +:+ h +:+ port_string (port u)
  | None =>
      match opaque u, segments u with
      | None, "" :: _ :: _ => "/."
      | _, _ => ""
      end
  end.

Definition query_string (q : option string) : string :=
  match q with Some q' => "?" +:+ q' | None => "" end.

Definition fragment_string (f : option string) : string :=
  match f with Some f' => "#" +:+ f' | None => "" end.

Definition tail_string (q f : option string) : string :=
  query_string q +:+ fragment_string f.

(** The URL serialiser. *)
Definition serialize (u : record) : string :=
  scheme u +:+ ":" +:+ authority_string u +:+ path_string u
  +:+ tail_string (query u) (fragment u).

(** The object the constructor returns. *)
Definition to_URL (u : record) : Url.URL :=
  {| Url.href := serialize u;
     Url.protocol := scheme u +:+ ":";
     Url.hostname := default "" (host u);
     Url.pathname := path_string u |}.

Definition no_stop (stops : string) (s : string) : bool :=
  all_chars (λ c, negb (mem_char c stops)) s.

(** What follows a cut is empty or begins with a stop. *)
Definition stopped (stops : string) (b : string) : Prop :=
  match b with
  | "" => True
  | String c _ => mem_char c stops = true
  end.

(** The input is one the model covers. *)
Definition covered (input : string) (base : option string) : bool :=
  match parse input base with
  | Unmodelled => false
  | _ => true
  end.

(** The constructor: the [TypeError] of a [Failure] is [None], and an input
    the model does not cover is left to [beyond]. *)
Definition new_URL_with (beyond : string → option string → option Url.URL)
    (input : string) (base : option string) : option Url.URL :=
  match parse input base with
  | Parsed u => Some (to_URL u)
  | Failure => None
  | Unmodelled => beyond input base
  end.

(** The constructor of the scenarios, which meet covered inputs only: the
    answer beyond them is of no account there. *)
Definition new_URL : string → option string → option Url.URL :=
  new_URL_with (λ _ _, None).

End Whatwg.

(** ** Exchanges by name *)

Module Exchange.
Import Http.

(** A finished response with a body. *)
Definition reply (code : Z) (hs : gmap string string) (data : string) : ServerResponse :=
  {| statusCode := code; out_headers := hs; out_body := Some data |}.

(** The three outbound calls of the two handlers, as the source writes them. *)
Definition proxy_call (target : string) : Call :=
  {| call_url := target;
     call_init := {| method := None;
                     init_headers := {[ "User-Agent" := Proxy.user_agent ]};
                     redirect := Some "follow" |} |}.

Definition head_call (fileUrl : string) : Call :=
  {| call_url := fileUrl;
     call_init := {| method := Some "HEAD"; init_headers := ∅;
                     redirect := Some "follow" |} |}.

Definition get_call (fileUrl : string) : Call :=
  {| call_url := fileUrl;
     call_init := {| method := None; init_headers := ∅;
                     redirect := Some "follow" |} |}.

(** The value of [Content-Disposition], and the headers the download
    handler has set when it comes to the body of the answer: the two of an
    attachment, or none when the file name makes the first one throw. *)
Definition disposition (P : Platform) (fileUrl : string) : string :=
  "attachment; filename=" +:+ Download.quote
  +:+ Download.filename_of P fileUrl +:+ Download.quote.

Definition attachment (P : Platform) (fileUrl : string) (r : Response) :
    gmap string string :=
  if header_value (disposition P fileUrl)
  then <[ "Content-Type" :=
            Download.or_else (headers_get r "content-type") "application/octet-stream" ]>
       (<[ "Content-Disposition" := disposition P fileUrl ]> ∅)
  else ∅.

End Exchange.

(** ** The exchanges of the handlers, row by row

    Each row is one way through a handler: the conditions met on the way,
    and the finished exchange. *)

Module Table.
Import JsString Http Url Exchange.

(** The request names a target that passes the guard of the handler,
    [local] being the host test of the handler. *)
Definition admitted (P : Platform) (local : string → bool) (req : NextApiRequest)
    (target : string) : Prop :=
  query_url req = Some target ∧ target ≠ ""
  ∧ ∃ u, new_URL P target None = Some u ∧ local (hostname u) = false.

Inductive proxy_row (P : Platform) (req : NextApiRequest) :
    ServerResponse * list Call → Prop :=
| proxy_row_missing :
    query_url req = None ∨ query_url req = Some "" →
    proxy_row P req (reply 400 ∅ "Missing url query parameter", [])
| proxy_row_invalid target :
    query_url req = Some target → target ≠ "" →
    new_URL P target None = None →
    proxy_row P req (reply 400 ∅ "Invalid URL", [])
| proxy_row_local target u :
    query_url req = Some target → target ≠ "" →
    new_URL P target None = Some u →
    Proxy.local_host (hostname u) = true →
    proxy_row P req (reply 400 ∅ "Local addresses not allowed", [])
| proxy_row_error target :
    admitted P Proxy.local_host req target →
    (origin P (proxy_call target) = None
     ∨ ∃ r, origin P (proxy_call target) = Some r ∧ text r = None) →
    proxy_row P req (reply 500 ∅ "Proxy fetch error", [proxy_call target])
| proxy_row_unsendable target r t :
    admitted P Proxy.local_host req target →
    origin P (proxy_call target) = Some r → text r = Some t →
    includes (default "" (headers_get r "content-type")) "text/html" = false →
    header_value target = false →
    proxy_row P req (reply 500 ∅ "Proxy fetch error", [proxy_call target])
| proxy_row_redirect target r t :
    admitted P Proxy.local_host req target →
    origin P (proxy_call target) = Some r → text r = Some t →
    includes (default "" (headers_get r "content-type")) "text/html" = false →
    header_value target = true →
    proxy_row P req (reply 302 {[ "Location" := target ]} "", [proxy_call target])
| proxy_row_html target u r t :
    query_url req = Some target → target ≠ "" →
    new_URL P target None = Some u →
    Proxy.local_host (hostname u) = false →
    origin P (proxy_call target) = Some r → text r = Some t →
    includes (default "" (headers_get r "content-type")) "text/html" = true →
    proxy_row P req
      (reply 200 {[ "Content-Type" := "text/html; charset=utf-8" ]}
         (cheerio_html P (Proxy.rewrite_page P u (cheerio_load P t))),
       [proxy_call target]).

(** The download handler is past its guard and its HEAD, and on to the GET. *)
Definition relays (P : Platform) (fileUrl : string) : Prop :=
  fileUrl ≠ "" ∧
  ∃ u head, new_URL P fileUrl None = Some u
    ∧ Download.local_host (hostname u) = false
    ∧ origin P (head_call fileUrl) = Some head
    ∧ Download.over_threshold (headers_get head "content-length") = false.

Inductive download_row (P : Platform) (req : NextApiRequest) :
    ServerResponse * list Call → Prop :=
| download_row_missing :
    query_url req = None ∨ query_url req = Some "" →
    download_row P req (reply 400 ∅ "Missing url", [])
| download_row_invalid fileUrl :
    query_url req = Some fileUrl → fileUrl ≠ "" →
    new_URL P fileUrl None = None →
    download_row P req (reply 500 ∅ "Download error", [])
| download_row_local fileUrl u :
    query_url req = Some fileUrl → fileUrl ≠ "" →
    new_URL P fileUrl None = Some u →
    Download.local_host (hostname u) = true →
    download_row P req (reply 400 ∅ "Local addresses not allowed", [])
| download_row_head_rejected fileUrl :
    admitted P Download.local_host req fileUrl →
    origin P (head_call fileUrl) = None →
    download_row P req (reply 500 ∅ "Download error", [head_call fileUrl])
| download_row_redirect fileUrl head :
    admitted P Download.local_host req fileUrl →
    origin P (head_call fileUrl) = Some head →
    Download.over_threshold (headers_get head "content-length") = true →
    header_value fileUrl = true →
    download_row P req (reply 302 {[ "Location" := fileUrl ]} "", [head_call fileUrl])
| download_row_unsendable fileUrl head :
    admitted P Download.local_host req fileUrl →
    origin P (head_call fileUrl) = Some head →
    Download.over_threshold (headers_get head "content-length") = true →
    header_value fileUrl = false →
    download_row P req (reply 500 ∅ "Download error", [head_call fileUrl])
| download_row_get_rejected fileUrl :
    query_url req = Some fileUrl → relays P fileUrl →
    origin P (get_call fileUrl) = None →
    download_row P req
      (reply 500 ∅ "Download error", [head_call fileUrl; get_call fileUrl])
| download_row_bad_gateway fileUrl r :
    query_url req = Some fileUrl → relays P fileUrl →
    origin P (get_call fileUrl) = Some r → ok r = false →
    download_row P req
      (reply 502 ∅ "Failed to fetch file", [head_call fileUrl; get_call fileUrl])
| download_row_relay_failed fileUrl r :
    query_url req = Some fileUrl → relays P fileUrl →
    origin P (get_call fileUrl) = Some r → ok r = true →
    download_row P req
      (reply 500 (attachment P fileUrl r) "Download error",
       [head_call fileUrl; get_call fileUrl]).

End Table.

(** ** A world to run the handlers in

    The reference [URL] class, a small origin at [example.com], and
    stand-ins for cheerio's parser and serialiser that know the one page
    the origin serves. *)

Module Scenario.
Import JsString Dom Http.

(** The page at [https://example.com/dir/page.html]. *)
Definition page_text : string :=
  "<html><head><link href='style.css'></head><body>"
  +:+ "<a href='/x.mp4'>x</a><a href='#top'>top</a><a href='http://example.com'>home</a>"
  +:+ "<img src='DATA:image/png;base64,AAAA'><a href='https://a:b/'>odd</a>"
  +:+ "<video><source src='clip.mp4'></video><p>text</p>"
  +:+ "</body></html>".

(** The tree an HTML parser builds from [page_text]: the children of its
    body element, and the whole. *)
Definition page_body : list node :=
  [Element "a" {[ "href" := "/x.mp4" ]} [Text "x"];
   Element "a" {[ "href" := "#top" ]} [Text "top"];
   Element "a" {[ "href" := "http://example.com" ]} [Text "home"];
   Element "img" {[ "src" := "DATA:image/png;base64,AAAA" ]} [];
   Element "a" {[ "href" := "https://a:b/" ]} [Text "odd"];
   Element "video" ∅ [Element "source" {[ "src" := "clip.mp4" ]} []];
   Element "p" ∅ [Text "text"]].

Definition page_dom : document :=
  [Element "html" ∅
     [Element "head" ∅ [Element "link" {[ "href" := "style.css" ]} []];
      Element "body" ∅ page_body]].

(** A frameset page: a document without a body element. *)
Definition frames_dom : document :=
  [Element "html" ∅
     [Element "head" ∅ [];
      Element "frameset" ∅ [Element "frame" {[ "src" := "menu.html" ]} []]]].

Definition page_url : string := "https://example.com/dir/page.html".

(** [new URL(page_url)] *)
Definition page_base : Url.URL :=
  {| Url.href := page_url; Url.protocol := "https:";
     Url.hostname := "example.com"; Url.pathname := "/dir/page.html" |}.

Definition load (text : string) : document :=
  if bool_decide (text = page_text) then page_dom else [].

Definition render_attribs (a : gmap string string) : string :=
  foldr (λ kv acc, " " +:+ kv.1 +:+ "=" +:+ Download.quote +:+ kv.2 +:+ Download.quote +:+ acc)
    "" (map_to_list a).

Definition void_element (nm : string) : bool :=
  bool_decide (nm ∈ ["img"; "link"; "source"; "frame"; "br"; "meta"; "input"; "hr"]).

Fixpoint render_node (n : node) : string :=
  match n with
  | Text s => s
  | Comment s => "<!--" +:+ s +:+ "-->"
  | Directive s => "<" +:+ s +:+ ">"
  | Element nm a cs =>
      "<" +:+ nm +:+ render_attribs a +:+ ">" +:+
      (if void_element nm then ""
       else foldr (λ c acc, render_node c +:+ acc) "" cs +:+ "</" +:+ nm +:+ ">")
  end.

Definition render (d : document) : string :=
  foldr (λ c acc, render_node c +:+ acc) "" d.

Definition html_response (content_type : string) (t : string) : Response :=
  {| ok := true; headers := {[ "content-type" := content_type ]};
     text := Some t; body := Some {| stream := NodeReadable; bytes := t; locked := false |};
     arrayBuffer := Some t |}.

Definition head_response (content_length : option string) : Response :=
  {| ok := true;
     headers := match content_length with
                | Some n => {[ "content-length" := n ]}
                | None => ∅
                end;
     text := Some ""; body := None; arrayBuffer := Some "" |}.

(** The origin: what it answers to each call; any other call is rejected,
    as a call to a host that does not answer or to a scheme the fetch
    library does not speak is. *)
Definition net (c : Call) : option Response :=
  let get := bool_decide (method (call_init c) = None) in
  let head := bool_decide (method (call_init c) = Some "HEAD") in
  let url := call_url c in
  if get && bool_decide (url = "https://example.com/dir/page.html")
  then Some (html_response "text/html; charset=utf-8" page_text)
  else if get && bool_decide (url = "https://example.com/archive")
  then Some (html_response "multipart/related; type=text/html" page_text)
  else if get && bool_decide (url = "https://example.com/img.png")
  then Some (html_response "image/png" "PNG")
  else if head && bool_decide (url = "https://example.com/big.bin")
  then Some (head_response (Some "32505856"))
  else if head && bool_decide (url = "https://example.com/small.bin")
  then Some (head_response (Some "30408704"))
  else if head && bool_decide (url = "https://example.com/unsized.bin")
  then Some (head_response None)
  else if get && (bool_decide (url = "https://example.com/small.bin")
                  || bool_decide (url = "https://example.com/unsized.bin"))
  then Some (html_response "application/octet-stream" "bytes")
  else None.

(** [decodeURIComponent]: an escape of two hexadecimal digits below [%80]
    is the character of that code, and a per cent sign that opens no escape
    is a [URIError].  The escapes from [%80] on stand for the bytes of a
    UTF-8 sequence; the scenarios decode none, and the model answers on
    them as on a malformed sequence. *)
Definition hex_value (c : ascii) : option nat :=
  let n := nat_of_ascii c in
  if bool_decide (48 ≤ n ≤ 57) then Some (n - 48)
  else if bool_decide (65 ≤ n ≤ 70) then Some (n - 55)
  else if bool_decide (97 ≤ n ≤ 102) then Some (n - 87)
  else None.

Fixpoint decode (s : string) : option string :=
  match s with
  | "" => Some ""
  | String "%" (String h (String l s')) =>
      match hex_value h, hex_value l with
      | Some a, Some b =>
          if bool_decide (a < 8) then String (ascii_of_nat (16 * a + b)) <$> decode s'
          else None
      | _, _ => None
      end
  | String "%" _ => None
  | String c s' => String c <$> decode s'
  end.

(** The targets the scenarios request. *)
Definition targets : list string :=
  [page_url; "https://example.com/archive"; "https://example.com/img.png";
   "https://example.com/big.bin"; "https://example.com/small.bin";
   "https://example.com/unsized.bin"; "http://db.internal/secret";
   "ftp://example.com/file.txt"; "https://192.168.1.10:8443/admin";
   "not a url"; "example.com/page"; "http://example.com";
   "https://host/path/to/movie.mp4"; "https://host/"].

(** The platform of the scenarios, with any answer of the constructor
    beyond the model, and with none. *)
Definition world_with (beyond : string → option string → option Url.URL) : Platform :=
  {| new_URL := Whatwg.new_URL_with beyond;
     cheerio_load := load;
     cheerio_html := render;
     decodeURIComponent := decode;
     origin := net |}.

Definition world : Platform := world_with (λ _ _, None).

(** A second origin: a file whose HEAD is answered and whose GET is
    refused; a file whose body is a WHATWG stream; a file whose name holds
    the escape of a line feed; and two files whose addresses hold a line
    feed itself, which the URL parser removes and a header value may not
    hold: an image, and a file of 31 MiB. *)
Definition stream_response (b : Body) (buf : option string) : Response :=
  {| ok := true; headers := ∅; text := buf; body := Some b; arrayBuffer := buf |}.

Definition line_feed : string := String "010" "".

Definition broken_image : string := "https://example.com/a" +:+ line_feed +:+ "b.png".

Definition broken_file : string := "https://example.com/big" +:+ line_feed +:+ ".bin".

Definition net' (c : Call) : option Response :=
  let get := bool_decide (method (call_init c) = None) in
  let head := bool_decide (method (call_init c) = Some "HEAD") in
  let url := call_url c in
  if head && bool_decide (url = "https://example.com/gone.bin")
  then Some (head_response None)
  else if head && bool_decide (url = "https://example.com/web.bin")
  then Some (head_response None)
  else if get && bool_decide (url = "https://example.com/web.bin")
  then Some (stream_response {| stream := WebReadable; bytes := "bytes"; locked := false |}
               (Some "bytes"))
  else if head && bool_decide (url = "https://example.com/a%0Ab")
  then Some (head_response None)
  else if get && bool_decide (url = "https://example.com/a%0Ab")
  then Some (html_response "application/octet-stream" "bytes")
  else if get && bool_decide (url = broken_image)
  then Some (html_response "image/png" "PNG")
  else if head && bool_decide (url = broken_file)
  then Some (head_response (Some "32505856"))
  else None.

(** The targets requested of the second origin. *)
Definition targets' : list string :=
  ["https://example.com/gone.bin"; "https://example.com/web.bin";
   "https://example.com/a%0Ab"; broken_image; broken_file].

Definition world'_with (beyond : string → option string → option Url.URL) : Platform :=
  {| new_URL := Whatwg.new_URL_with beyond;
     cheerio_load := load;
     cheerio_html := render;
     decodeURIComponent := decode;
     origin := net' |}.

Definition world' : Platform := world'_with (λ _ _, None).

End Scenario.

(** ** The words of the specification *)

Module Spec.
Import JsString Dom.

(** The attribute classes: anchor, image, script, stylesheet link, video
    and source elements, each with the attribute that holds its reference. *)
Definition attribute_class (tag : string) : option string :=
  if decide (tag = "a") then Some "href"
  else if decide (tag = "img") then Some "src"
  else if decide (tag = "script") then Some "src"
  else if decide (tag = "link") then Some "href"
  else if decide (tag = "video") then Some "src"
  else if decide (tag = "source") then Some "src"
  else None.

(** [v] begins with [prefix], letters compared without case. *)
Definition begins_with_ci (prefix v : string) : Prop :=
  ∃ q t, v = q +:+ t ∧ toLowerCase q = toLowerCase prefix.

(** The values the rewriter skips. *)
Definition skipped (v : string) : Prop :=
  v = "" ∨ begins_with_ci "data:" v ∨ begins_with_ci "mailto:" v
  ∨ begins_with_ci "javascript:" v ∨ begins_with_ci "#" v.

(** A probe script block: a script element whose only child is the text of
    the probe script. *)
Definition only_text (s : string) (cs : list node) : bool :=
  match cs with
  | [Text t] => bool_decide (t = s)
  | _ => false
  end.

Definition is_probe (n : node) : bool :=
  match n with
  | Element nm _ cs => bool_decide (nm = "script") && only_text Proxy.probe_js cs
  | _ => false
  end.

Definition is_body (n : node) : bool :=
  match n with
  | Element nm _ _ => bool_decide (nm = "body")
  | _ => false
  end.

(** The number of nodes of the tree below [n], [n] included, that pass [test]. *)
Fixpoint count_node (test : node → bool) (n : node) : nat :=
  (if test n then 1 else 0) +
  match n with
  | Element _ _ cs => sum_list_with (count_node test) cs
  | _ => 0
  end.

Definition count (test : node → bool) (d : document) : nat :=
  sum_list_with (count_node test) d.

(** The rule for the attributes [a] of one element of tag [nm], [a'] being
    what the rewriter leaves: a value that is absent or skipped stays, any
    other is replaced by what it resolves to against the base, and stays
    when it does not resolve. *)
Definition rewritten (P : Platform) (base : Url.URL) (nm : string)
    (a a' : gmap string string) : Prop :=
  match attribute_class nm with
  | None => a' = a
  | Some k =>
      match a !! k with
      | None => a' = a
      | Some v =>
          (skipped v → a' = a) ∧
          (¬ skipped v →
           match new_URL P v (Some (Url.href base)) with
           | Some abs => a' = <[k := Url.href abs]> a
           | None => a' = a
           end)
      end
  end.

(** [sub] occurs in [s]. *)
Definition contains (s sub : string) : Prop := ∃ a b, s = a +:+ sub +:+ b.

(** The hosts the guard is to refuse. *)
Definition loopback_or_private (h : string) : Prop :=
  h = "localhost" ∨ h = "127.0.0.1" ∨ ∃ t, h = "192.168." +:+ t.

Definition internal_suffix (h : string) : Prop := ∃ t, h = t +:+ ".internal".

(** A page as the HTML tree builder leaves it has at most one body
    element: a second [<body>] tag adds no element, and a frameset page has
    none. *)
Definition html_document (d : document) : Prop := count is_body d ≤ 1.

(** The references of a page: the values of the attributes the rewriter
    looks at, element by element in document order. *)
Fixpoint references_node (n : node) : list string :=
  match n with
  | Element nm a cs =>
      match attribute_class nm ≫= λ k, a !! k with
      | Some v => [v]
      | None => []
      end ++ concat (references_node <$> cs)
  | _ => []
  end.

Definition references (d : document) : list string :=
  concat (references_node <$> d).

(** The URL class reads its own output back: where the reference [v]
    resolves against [base] to a URL, and the serialisation of that URL
    resolves again, the two serialisations are the same. *)
Definition stable (P : Platform) (base : Url.URL) (v : string) : bool :=
  match new_URL P v (Some (Url.href base)) with
  | Some abs =>
      match new_URL P (Url.href abs) (Some (Url.href base)) with
      | Some again => bool_decide (Url.href again = Url.href abs)
      | None => true
      end
  | None => true
  end.

(** The six calls of [makeAbs], as pairs of a tag and an attribute, and
    the calls of a list made one after the other. *)
Definition passes : list (string * string) :=
  [("a", "href"); ("img", "src"); ("script", "src"); ("link", "href");
   ("video", "src"); ("source", "src")].

Definition run_passes (P : Platform) (base : Url.URL) (l : list (string * string))
    (d : document) : document :=
  fold_left (λ d pass, Proxy.makeAbs P base pass.1 pass.2 d) l d.

(** A page with its references blanked: the value of the attribute of its
    class, where an element has one, replaced by the empty string.  Two
    pages with the same blanked page differ in those values only. *)
Definition blank_attribs (nm : string) (a : gmap string string) : gmap string string :=
  match attribute_class nm with
  | Some k => alter (λ _, "") k a
  | None => a
  end.

Definition blank (d : document) : document := transform blank_attribs (λ _, []) <$> d.

End Spec.

(** * Properties *)

Module JsStringFacts.
Import JsString.

Lemma startsWith_spec s p : startsWith s p = true ↔ ∃ t, s = p +:+ t.
Proof.
  revert s. induction p as [|c p IH]; intros s; simpl.
  - split; [intros _; by exists s | done].
  - destruct s as [|d s]; simpl.
    + split; [done | intros [t Ht]; discriminate].
    + rewrite andb_true_iff, bool_decide_eq_true, IH. split.
      * intros [-> [t ->]]. by exists t.
      * intros [t Ht]. injection Ht as -> ->. eauto.
Qed.

Lemma includes_spec s sub : includes s sub = true ↔ ∃ t u, s = t +:+ sub +:+ u.
Proof.
  induction s as [|d s IH]; simpl.
  - rewrite orb_false_r, startsWith_spec. split.
    + intros [u Hu]. by exists "", u.
    + intros [t [u Htu]]. destruct t; simpl in Htu; [by exists u | discriminate].
  - rewrite orb_true_iff, IH, startsWith_spec. split.
    + intros [[u Hu] | [t [u Htu]]].
      * by exists "", u.
      * exists (String d t), u. simpl. by rewrite Htu.
    + intros [t [u Htu]]. destruct t as [|e t]; simpl in Htu.
      * left. by exists u.
      * right. injection Htu as -> ->. by exists t, u.
Qed.

Lemma length_app s t : String.length (s +:+ t) = String.length s + String.length t.
Proof. induction s as [|c s IH]; simpl; [done | by rewrite IH]. Qed.

Lemma drop_app s t : drop (String.length s) (s +:+ t) = t.
Proof. induction s; simpl; [by destruct t | done]. Qed.

Lemma take_drop n s : n ≤ String.length s → ∃ t, s = t +:+ drop n s ∧ String.length t = n.
Proof.
  revert s. induction n as [|n IH]; intros s Hn.
  - exists "". by destruct s.
  - destruct s as [|c s]; simpl in *; [lia |].
    destruct (IH s) as [t [Ht Hl]]; [lia |].
    exists (String c t). split; [exact (f_equal (String c) Ht) | simpl; by rewrite Hl].
Qed.

Lemma endsWith_spec s suf : endsWith s suf = true ↔ ∃ t, s = t +:+ suf.
Proof.
  unfold endsWith. rewrite andb_true_iff, !bool_decide_eq_true. split.
  - intros [Hle Hd].
    destruct (take_drop (String.length s - String.length suf) s) as [t [Ht _]]; [lia |].
    exists t. by rewrite Hd in Ht.
  - intros [t ->]. rewrite length_app. split; [lia |].
    replace (String.length t + String.length suf - String.length suf)
      with (String.length t) by lia.
    apply drop_app.
Qed.

Lemma truthy_spec s : truthy s = true ↔ s ≠ "".
Proof. unfold truthy. rewrite negb_true_iff, bool_decide_eq_false. done. Qed.

Lemma truthy_spec_false s : truthy s = false ↔ s = "".
Proof. unfold truthy. rewrite negb_false_iff, bool_decide_eq_true. done. Qed.

End JsStringFacts.

Module JsNumberFacts.
Import JsString JsNumber.

Lemma digit_val_decimal c :
  is_digit c = true → digit_val 10 c = Some (Z.of_nat (nat_of_ascii c) - 48)%Z.
Proof.
  unfold is_digit, digit_val. rewrite bool_decide_eq_true. intros H.
  rewrite bool_decide_eq_true_2 by lia. simpl.
  by rewrite bool_decide_eq_true_2 by lia.
Qed.

Lemma digits_go_decimal s acc :
  all_digits s = true →
  digits_go 10 (Some acc) s = Some (decimal_go acc s).
Proof.
  revert acc. induction s as [|c s IH]; intros acc; simpl; [done |].
  rewrite andb_true_iff. intros [Hc Hs].
  rewrite (digit_val_decimal c Hc). simpl. by apply IH.
Qed.

Lemma is_digit_not_space c : is_digit c = true → is_space c = false.
Proof.
  unfold is_digit, is_space. rewrite bool_decide_eq_true, bool_decide_eq_false.
  intros H Hin. repeat (apply elem_of_cons in Hin as [Hin | Hin]; [lia |]).
  by apply elem_of_nil in Hin.
Qed.

(** On a non-empty run of decimal digits [parseInt] is the decimal value. *)
Lemma parseInt_decimal s :
  s ≠ "" → all_digits s = true → parseInt s = Some (decimal_value s).
Proof.
  intros Hne Hd. destruct s as [|c s]; [done |]. clear Hne.
  simpl in Hd. apply andb_true_iff in Hd as [Hc Hs].
  unfold parseInt. simpl trim_start. rewrite (is_digit_not_space c Hc).
  assert (Hsign : c ≠ "-"%char ∧ c ≠ "+"%char).
  { split; intros ->; vm_compute in Hc; discriminate. }
  destruct Hsign as [Hm Hp].
  assert (Hx : startsWith (String c s) "0x" || startsWith (String c s) "0X" = false).
  { destruct s as [|d s]; [simpl; by rewrite !andb_false_r |].
    simpl in Hs. apply andb_true_iff in Hs as [Hd _].
    simpl. rewrite !andb_true_r.
    assert (d ≠ "x"%char ∧ d ≠ "X"%char) as [H1 H2].
    { split; intros ->; vm_compute in Hd; discriminate. }
    rewrite (bool_decide_eq_false_2 ("x"%char = d)) by congruence.
    rewrite (bool_decide_eq_false_2 ("X"%char = d)) by congruence.
    by rewrite !andb_false_r. }
  assert (Hbody : (let '(radix, s0) :=
             if startsWith (String c s) "0x" || startsWith (String c s) "0X"
             then (16%Z, drop 2 (String c s)) else (10%Z, String c s) in
           Z.mul 1 <$> digits_go radix None s0) = Some (decimal_value (String c s))).
  { rewrite Hx. simpl digits_go. rewrite (digit_val_decimal c Hc).
    rewrite (digits_go_decimal s _ Hs). simpl.
    unfold decimal_value. simpl decimal_go. f_equal. lia. }
  destruct c as [[] [] [] [] [] [] [] []]; try exact Hbody; congruence.
Qed.

End JsNumberFacts.

Module DomFacts.
Import Dom.

Lemma fold_left_pointwise {A B} (f g : A → B → A) (l : list B) (a : A) :
  (∀ a b, f a b = g a b) → fold_left f l a = fold_left g l a.
Proof.
  intros H. revert a. induction l as [|b l IH]; intros a; simpl; [done |].
  by rewrite H, IH.
Qed.

Section Edits.
Variable sel : string.
(** An edit of one element: new attributes, new last children. *)
Variable g : node → node.
Variable ga : gmap string string → gmap string string.
Variable gx : list node.
Hypothesis g_element : ∀ nm a cs, g (Element nm a cs) = Element nm (ga a) (cs ++ gx).

Let upd := λ (d : document) (p : path), update p g d.
Let upd_node := λ (n : node) (p : path), update_node p g n.
Let F := λ nm a, only sel (ga a) a nm.
Let X := only sel gx [].

Lemma select_node_element nm a cs :
  select_node sel (Element nm a cs) =
  (if decide (nm = sel) then [[]] else []) ++ select_list sel 0 cs.
Proof.
  simpl. f_equal. generalize 0. induction cs as [|c l IH]; intros i; simpl; [done |].
  by rewrite IH.
Qed.

Lemma fold_update_cons i ps (l : list node) :
  fold_left upd (cons i <$> ps) l = alter (λ n, fold_left upd_node ps n) i l.
Proof.
  revert l. induction ps as [|p ps IH]; intros l; simpl.
  - symmetry. apply list_alter_id. done.
  - rewrite IH. etrans; [apply list_alter_alter_eq | done].
Qed.

Lemma fold_update_children nm a ps cs :
  Forall (λ p, p ≠ []) ps →
  fold_left upd_node ps (Element nm a cs) = Element nm a (fold_left upd ps cs).
Proof.
  intros Hps. revert cs. induction Hps as [|p ps Hp _ IH]; intros cs; simpl; [done |].
  destruct p as [|i p]; [done |]. unfold upd_node at 2. simpl. by rewrite IH.
Qed.

Lemma select_list_nonempty i l : Forall (λ p, p ≠ []) (select_list sel i l).
Proof.
  revert i. induction l as [|c l IH]; intros i; simpl; [constructor |].
  apply Forall_app. split; [| apply IH].
  apply Forall_forall. intros p Hp. apply list_elem_of_fmap in Hp as [q [-> _]]. done.
Qed.

Lemma fold_select_list (l pre suf : list node) :
  Forall (λ c, fold_left upd_node (select_node sel c) c = transform F X c) l →
  fold_left upd (select_list sel (length pre) l) (pre ++ l ++ suf)
  = pre ++ (transform F X <$> l) ++ suf.
Proof.
  intros Hl. revert pre. induction Hl as [|c l Hc _ IH]; intros pre; simpl; [done |].
  rewrite fold_left_app, fold_update_cons.
  replace (length pre) with (length pre + 0) at 2 by lia.
  rewrite alter_app_r. simpl. rewrite Hc.
  specialize (IH (pre ++ [transform F X c])).
  rewrite length_app in IH. simpl in IH.
  replace (length pre + 1) with (S (length pre)) in IH by lia.
  rewrite <- !(assoc_L (++)) in IH. simpl in IH. exact IH.
Qed.

Lemma fold_select_node n :
  fold_left upd_node (select_node sel n) n = transform F X n.
Proof.
  induction n as [s|s|s|nm a cs IH] using node_ind'; try done.
  rewrite select_node_element. unfold F, X, only. simpl transform.
  destruct (decide (nm = sel)) as [Heq|Hne]; simpl.
  - unfold upd_node at 2. simpl. rewrite g_element.
    rewrite fold_update_children by apply select_list_nonempty.
    f_equal. apply (fold_select_list cs [] gx IH).
  - rewrite fold_update_children by apply select_list_nonempty.
    f_equal. rewrite <- (app_nil_r cs) at 2.
    apply (fold_select_list cs [] [] IH).
Qed.

(** Editing the selected elements one by one is the single pass. *)
Lemma fold_select (d : document) :
  fold_left upd (select sel d) d = transform F X <$> d.
Proof.
  unfold select. rewrite <- (app_nil_r d) at 2.
  rewrite <- (app_nil_r (_ <$> d)).
  apply (fold_select_list d [] []).
  apply Forall_forall. intros c _. apply fold_select_node.
Qed.
End Edits.

(** *** Facts about paths and passes *)

Lemma update_node_ext p g g' n :
  (∀ m, node_at_node p n = Some m → g m = g' m) →
  update_node p g n = update_node p g' n.
Proof.
  revert n. induction p as [|i p IH]; intros n H; simpl.
  - by apply H.
  - destruct n as [| | |nm a cs]; try done. f_equal.
    apply list_alter_ext; [| done]. intros c Hc. apply IH.
    intros m Hm. apply H. simpl. by rewrite Hc.
Qed.

Lemma update_ext p g g' (d : document) :
  (∀ m, node_at p d = Some m → g m = g' m) → update p g d = update p g' d.
Proof.
  destruct p as [|i p]; intros H; simpl; [done |].
  apply list_alter_ext; [| done]. intros c Hc. apply update_node_ext.
  intros m Hm. apply H. unfold node_at. by rewrite Hc.
Qed.

Lemma update_node_id p n : update_node p (λ m, m) n = n.
Proof.
  revert n. induction p as [|i p IH]; intros n; simpl; [done |].
  destruct n as [| | |nm a cs]; try done. f_equal. by apply list_alter_id.
Qed.

(** An edit that keeps the addressed node keeps the page; so does an edit
    at a path that addresses nothing. *)
Lemma update_same p g (d : document) :
  (∀ m, node_at p d = Some m → g m = m) → update p g d = d.
Proof.
  intros H. rewrite (update_ext p g (λ m, m) d H).
  destruct p as [|i p]; simpl; [done |]. apply list_alter_id, update_node_id.
Qed.

Lemma transform_ext f f' x x' n :
  (∀ nm a, f nm a = f' nm a) → (∀ nm, x nm = x' nm) →
  transform f x n = transform f' x' n.
Proof.
  intros Hf Hx. induction n as [s|s|s|nm a cs IH] using node_ind'; try done.
  simpl. rewrite Hf, Hx. do 2 f_equal.
  apply list_fmap_ext. intros i c Hc.
  eapply Forall_lookup_1 in IH; [exact IH | exact Hc].
Qed.

(** An attribute pass followed by any pass is one pass. *)
Lemma transform_compose f1 f2 x2 n :
  transform f2 x2 (transform f1 (λ _, []) n)
  = transform (λ nm a, f2 nm (f1 nm a)) x2 n.
Proof.
  induction n as [s|s|s|nm a cs IH] using node_ind'; try done.
  simpl. rewrite app_nil_r, <- list_fmap_compose. do 2 f_equal.
  apply list_fmap_ext. intros i c Hc. simpl.
  eapply Forall_lookup_1 in IH; [exact IH | exact Hc].
Qed.

Lemma transform_compose_doc f1 f2 x2 (d : document) :
  transform f2 x2 <$> (transform f1 (λ _, []) <$> d)
  = transform (λ nm a, f2 nm (f1 nm a)) x2 <$> d.
Proof.
  rewrite <- list_fmap_compose. apply list_fmap_ext. intros i c _.
  apply transform_compose.
Qed.

(** A pass keeps every node where it is: what stood at a path now stands
    there rewritten. *)
Lemma node_at_node_transform f x p n m :
  node_at_node p n = Some m →
  node_at_node p (transform f x n) = Some (transform f x m).
Proof.
  revert n. induction p as [|i p IH]; intros n; simpl.
  - by intros [= ->].
  - destruct n as [| | |nm a cs]; try done. simpl.
    destruct (cs !! i) as [c|] eqn:Hc; [| done]. simpl. intros Hp.
    rewrite lookup_app_l by (rewrite length_fmap; by eapply lookup_lt_Some).
    rewrite list_lookup_fmap, Hc. simpl. by apply IH.
Qed.

Lemma node_at_transform f x p (d : document) m :
  node_at p d = Some m →
  node_at p (transform f x <$> d) = Some (transform f x m).
Proof.
  destruct p as [|i p]; simpl; [done |].
  destruct (d !! i) as [c|] eqn:Hc; [| done]. simpl. intros Hp.
  rewrite list_lookup_fmap, Hc. simpl. by eapply node_at_node_transform.
Qed.

End DomFacts.

Module ProxyFacts.
Import JsString JsStringFacts Dom DomFacts Http Url Proxy Spec.

Lemma toLowerCase_app s t : toLowerCase (s +:+ t) = toLowerCase s +:+ toLowerCase t.
Proof. induction s as [|c s IH]; simpl; [done | by rewrite IH]. Qed.

Lemma toLowerCase_app_inv v a b :
  toLowerCase v = a +:+ b →
  ∃ q t, v = q +:+ t ∧ toLowerCase q = a ∧ toLowerCase t = b.
Proof.
  revert v. induction a as [|c a IH]; intros v H.
  - by exists "", v.
  - destruct v as [|d v]; [discriminate |].
    injection H as Hc Hv. destruct (IH v Hv) as (q & t & -> & Hq & Ht).
    exists (String d q), t. simpl. by rewrite Hc, Hq.
Qed.

Lemma startsWith_ci prefix v :
  startsWith (toLowerCase v) (toLowerCase prefix) = true ↔ begins_with_ci prefix v.
Proof.
  rewrite startsWith_spec. unfold begins_with_ci. split.
  - intros [t Ht]. apply toLowerCase_app_inv in Ht as (q & t' & -> & Hq & _). eauto.
  - intros (q & t & -> & Hq). exists (toLowerCase t). by rewrite toLowerCase_app, Hq.
Qed.

(** The regular expression accepts the values that begin with one of the
    four prefixes. *)
Lemma skip_re_spec v :
  skip_re v = true ↔
  begins_with_ci "data:" v ∨ begins_with_ci "mailto:" v
  ∨ begins_with_ci "javascript:" v ∨ begins_with_ci "#" v.
Proof.
  unfold skip_re, skip_alternatives. cbn [existsb].
  rewrite orb_false_r, !orb_true_iff, !startsWith_ci. tauto.
Qed.

(** What the handler skips, [!val] and the regular expression together. *)
Lemma skipped_spec v :
  negb (truthy v) || skip_re v = true ↔ skipped v.
Proof.
  unfold skipped. rewrite orb_true_iff, skip_re_spec, negb_true_iff.
  unfold truthy. rewrite negb_false_iff, bool_decide_eq_true. tauto.
Qed.

Section Passes.
Variable P : Platform.
Variable base : URL.

Lemma makeAbs_callback attr (d : document) (el : path) :
  match Dom.attr d el attr with
  | None => d
  | Some val =>
      if negb (truthy val) then d
      else if skip_re val then d
      else match new_URL P val (Some (href base)) with
           | Some abs => set_attr el attr (href abs) d
           | None => d
           end
  end = update el (on_attribs (abs_attr P base attr)) d.
Proof.
  unfold Dom.attr, set_attr.
  destruct (node_at el d) as [[s|s|s|nm a cs]|] eqn:Hel;
    try (symmetry; apply update_same; intros m Hm; by simplify_eq).
  assert (Hkeep : abs_attr P base attr a = a →
                  d = update el (on_attribs (abs_attr P base attr)) d).
  { intros Ha. symmetry. apply update_same. intros m Hm. simplify_eq. simpl. by rewrite Ha. }
  destruct (a !! attr) as [val|] eqn:Hval;
    [| apply Hkeep; unfold abs_attr; by rewrite Hval].
  destruct (negb (truthy val)) eqn:Ht;
    [apply Hkeep; unfold abs_attr; by rewrite Hval, Ht |].
  destruct (skip_re val) eqn:Hs;
    [apply Hkeep; unfold abs_attr; by rewrite Hval, Ht, Hs |].
  destruct (new_URL P val (Some (href base))) as [abs|] eqn:Hu;
    [| apply Hkeep; unfold abs_attr; by rewrite Hval, Ht, Hs, Hu].
  apply update_ext. intros m Hm. simplify_eq. simpl.
  unfold abs_attr. by rewrite Hval, Ht, Hs, Hu.
Qed.

Lemma makeAbs_transform sel attr (d : document) :
  makeAbs P base sel attr d
  = transform (λ nm a, only sel (abs_attr P base attr a) a nm) (λ _, []) <$> d.
Proof.
  unfold makeAbs, each.
  rewrite (fold_left_pointwise _ (λ d el, update el (on_attribs (abs_attr P base attr)) d))
    by (intros; apply makeAbs_callback).
  rewrite (fold_select sel _ (abs_attr P base attr) [])
    by (intros; simpl; by rewrite app_nil_r).
  apply list_fmap_ext. intros i c _. apply transform_ext; [done |].
  intros nm. unfold only. by case_decide.
Qed.

Lemma absolutize_transform (d : document) :
  absolutize P base d = transform (abs_attrs P base) (λ _, []) <$> d.
Proof.
  unfold absolutize. rewrite !makeAbs_transform, !transform_compose_doc. done.
Qed.

Lemma inject_transform (d : document) :
  inject d = transform (λ _ a, a) (only "body" injected_dom []) <$> d.
Proof.
  unfold inject, append.
  rewrite (fold_select "body" _ (λ a, a) injected_dom) by done.
  apply list_fmap_ext. intros i c _. apply transform_ext; [| done].
  intros nm a. unfold only. by case_decide.
Qed.

Lemma rewrite_page_transform (d : document) :
  rewrite_page P base d
  = transform (abs_attrs P base) (only "body" injected_dom []) <$> d.
Proof.
  unfold rewrite_page. rewrite inject_transform, absolutize_transform.
  by rewrite transform_compose_doc.
Qed.

(** The six passes touch an element of a class once, at the attribute of
    its class, and no other element. *)
Lemma abs_attrs_class nm a :
  abs_attrs P base nm a
  = match attribute_class nm with
    | Some k => abs_attr P base k a
    | None => a
    end.
Proof.
  unfold abs_attrs, attribute_class, only.
  repeat case_decide; simplify_eq; done.
Qed.

End Passes.
End ProxyFacts.

(** ** The rewriter: counting probe blocks, rewriting twice *)

Module RewriterFacts.
Import JsString JsStringFacts Dom DomFacts Url Proxy ProxyFacts Spec.

Lemma count_node_element test nm a cs :
  count_node test (Element nm a cs)
  = (if test (Element nm a cs) then 1 else 0) + count test cs.
Proof. reflexivity. Qed.

Lemma count_app test (d1 d2 : document) : count test (d1 ++ d2) = count test d1 + count test d2.
Proof. apply sum_list_with_app. Qed.

Lemma count_cons test n (d : document) : count test (n :: d) = count_node test n + count test d.
Proof. reflexivity. Qed.

Lemma count_injected_probe : count is_probe injected_dom = 1.
Proof. vm_compute. reflexivity. Qed.

Section Counting.
Variable f : string → gmap string string → gmap string string.

Let X : string → list node := only "body" injected_dom [].

Lemma only_text_transform s cs : only_text s (transform f X <$> cs) = only_text s cs.
Proof. destruct cs as [|[] [|]]; done. Qed.

Lemma is_probe_transform n : is_probe (transform f X n) = is_probe n.
Proof.
  destruct n as [| | |nm a cs]; try done. cbn [transform is_probe].
  destruct (decide (nm = "script")) as [->|Hne].
  - unfold X, only. cbn [decide]. rewrite decide_False by done.
    by rewrite app_nil_r, only_text_transform.
  - by rewrite !bool_decide_eq_false_2.
Qed.

Lemma count_children (cs : list node) :
  Forall (λ c, count_node is_probe (transform f X c)
               = count_node is_probe c + count_node is_body c) cs →
  count is_probe (transform f X <$> cs) = count is_probe cs + count is_body cs.
Proof.
  induction 1 as [|c cs Hc _ IH]; [done |].
  rewrite fmap_cons, !count_cons, Hc, IH. lia.
Qed.

(** Every body element gains one probe block, and no block is lost. *)
Lemma count_probe_node n :
  count_node is_probe (transform f X n)
  = count_node is_probe n + count_node is_body n.
Proof.
  induction n as [s|s|s|nm a cs IH] using node_ind'; try done.
  change (transform f X (Element nm a cs))
    with (Element nm (f nm a) ((transform f X <$> cs) ++ X nm)).
  rewrite !count_node_element.
  change (Element nm (f nm a) ((transform f X <$> cs) ++ X nm))
    with (transform f X (Element nm a cs)).
  rewrite is_probe_transform, count_app, (count_children cs IH).
  assert (count is_probe (X nm) = if is_body (Element nm a cs) then 1 else 0) as ->.
  { unfold X, only. cbn [is_body]. case_decide.
    - rewrite bool_decide_eq_true_2 by done. apply count_injected_probe.
    - by rewrite bool_decide_eq_false_2. }
  lia.
Qed.

Lemma count_probe_doc (d : document) :
  count is_probe (transform f X <$> d) = count is_probe d + count is_body d.
Proof.
  apply count_children, Forall_forall. intros c _. apply count_probe_node.
Qed.

End Counting.

Section Rewriter.
Variable P : Platform.
Variable base : URL.

(** One probe block per body element of the page. *)
Lemma probe_count (d : document) :
  count is_probe (rewrite_page P base d) = count is_probe d + count is_body d.
Proof. rewrite rewrite_page_transform. apply count_probe_doc. Qed.

(** A pass that appends nothing where there is no body element. *)
Lemma no_body_node f n :
  count_node is_body n = 0 →
  transform f (only "body" injected_dom []) n = transform f (λ _, []) n.
Proof.
  induction n as [s|s|s|nm a cs IH] using node_ind'; try done.
  rewrite count_node_element. cbn [is_body transform]. intros Hn.
  destruct (decide (nm = "body")) as [->|Hne];
    [rewrite bool_decide_eq_true_2 in Hn by done; lia |].
  rewrite bool_decide_eq_false_2 in Hn by done.
  unfold only at 2. rewrite decide_False by done. do 2 f_equal.
  apply list_fmap_ext. intros i c Hc.
  eapply Forall_lookup_1 in IH; [| exact Hc]. apply IH.
  assert (count_node is_body c ≤ count is_body cs); [| lia].
  apply sum_list_with_in. by eapply list_elem_of_lookup_2.
Qed.

Lemma no_body (d : document) :
  count is_body d = 0 → rewrite_page P base d = absolutize P base d.
Proof.
  intros Hd. rewrite rewrite_page_transform, absolutize_transform.
  apply list_fmap_ext. intros i c Hc. apply no_body_node.
  assert (count_node is_body c ≤ count is_body d); [| lia].
  apply sum_list_with_in. by eapply list_elem_of_lookup_2.
Qed.

Lemma abs_attr_twice k a :
  (∀ v, a !! k = Some v → stable P base v = true) →
  abs_attr P base k (abs_attr P base k a) = abs_attr P base k a.
Proof.
  intros Hst. unfold abs_attr at 2 3.
  destruct (a !! k) as [v|] eqn:Hv; [| unfold abs_attr; by rewrite Hv].
  destruct (negb (truthy v)) eqn:Ht; [unfold abs_attr; by rewrite Hv, Ht |].
  destruct (skip_re v) eqn:Hs; [unfold abs_attr; by rewrite Hv, Ht, Hs |].
  destruct (new_URL P v (Some (href base))) as [abs|] eqn:Hu;
    [| unfold abs_attr; by rewrite Hv, Ht, Hs, Hu].
  unfold abs_attr. rewrite lookup_insert_eq.
  destruct (negb (truthy (href abs))); [done |].
  destruct (skip_re (href abs)); [done |].
  specialize (Hst v eq_refl). unfold stable in Hst. rewrite Hu in Hst.
  destruct (new_URL P (href abs) (Some (href base))) as [again|]; [| done].
  apply bool_decide_eq_true in Hst. by rewrite Hst, insert_insert_eq.
Qed.

Lemma abs_attrs_twice nm a :
  (∀ v, attribute_class nm ≫= (λ k, a !! k) = Some v → stable P base v = true) →
  abs_attrs P base nm (abs_attrs P base nm a) = abs_attrs P base nm a.
Proof.
  intros Hst. rewrite !abs_attrs_class.
  destruct (attribute_class nm) as [k|]; [| done]. by apply abs_attr_twice.
Qed.

Lemma absolutize_twice_node n :
  Forall (λ v, stable P base v = true) (references_node n) →
  transform (abs_attrs P base) (λ _, []) (transform (abs_attrs P base) (λ _, []) n)
  = transform (abs_attrs P base) (λ _, []) n.
Proof.
  induction n as [s|s|s|nm a cs IH] using node_ind'; try done.
  cbn [references_node transform]. rewrite Forall_app. intros [Hself Hcs].
  rewrite !app_nil_r. f_equal.
  - apply abs_attrs_twice. intros v Hv. rewrite Hv in Hself. by inversion Hself.
  - rewrite <- list_fmap_compose. apply list_fmap_ext. intros i c Hc. simpl.
    eapply Forall_lookup_1 in IH; [| exact Hc]. apply IH.
    apply Forall_concat in Hcs. rewrite Forall_fmap in Hcs.
    eapply Forall_lookup_1 in Hcs; [| exact Hc]. exact Hcs.
Qed.

Lemma absolutize_twice (d : document) :
  forallb (stable P base) (references d) = true →
  absolutize P base (absolutize P base d) = absolutize P base d.
Proof.
  intros Hst. rewrite !absolutize_transform, <- list_fmap_compose.
  apply list_fmap_ext. intros i c Hc. simpl. apply absolutize_twice_node.
  apply Is_true_true, forallb_True, Forall_concat in Hst. rewrite Forall_fmap in Hst.
  eapply Forall_lookup_1 in Hst; [| exact Hc].
  eapply Forall_impl; [exact Hst |]. intros v Hv. by apply Is_true_true.
Qed.

End Rewriter.
End RewriterFacts.

(** ** The two handlers, case by case *)

Module HandlerFacts.
Import JsString JsStringFacts JsNumber Dom Http Url Exchange.

(** Unfolds a handler and the monad so that it computes on the facts at
    hand; [use H] rewrites with one more fact and computes on. *)
Ltac exec :=
  cbv beta iota zeta delta
    [run Proxy.handler Download.handler query_url mbind mret M_bind M_ret
     try_catch lift throw modify_res status setHeader send end_ writeHead
     NodeFetch.fetch fst snd res calls statusCode out_headers out_body fresh negb].

Ltac use H := rewrite H; cbv beta iota zeta.

Lemma html_content_type_value : header_value "text/html; charset=utf-8" = true.
Proof. reflexivity. Qed.

(** The content type the download handler sets is a header value: that of
    the origin as the fetch library kept it, or the constant. *)
Lemma content_type_value (r : Response) :
  header_value (Download.or_else (headers_get r "content-type") "application/octet-stream")
  = true.
Proof.
  unfold Download.or_else, headers_get.
  destruct (headers r !! toLowerCase "content-type") as [v|]; [| reflexivity].
  destruct (header_value v) eqn:Hv; [| reflexivity].
  by destruct (truthy v).
Qed.

Section Cases.
Variable P : Platform.

Lemma proxy_missing :
  run (Proxy.handler P {| query_url := None |})
  = (reply 400 ∅ "Missing url query parameter", []).
Proof. reflexivity. Qed.

Lemma proxy_empty :
  run (Proxy.handler P {| query_url := Some "" |})
  = (reply 400 ∅ "Missing url query parameter", []).
Proof. reflexivity. Qed.

Lemma proxy_invalid target :
  truthy target = true →
  new_URL P target None = None →
  run (Proxy.handler P {| query_url := Some target |})
  = (reply 400 ∅ "Invalid URL", []).
Proof. intros Ht Hu. exec. use Ht. use Hu. reflexivity. Qed.

Lemma proxy_local target u :
  truthy target = true →
  new_URL P target None = Some u →
  Proxy.local_host (hostname u) = true →
  run (Proxy.handler P {| query_url := Some target |})
  = (reply 400 ∅ "Local addresses not allowed", []).
Proof. intros Ht Hu Hl. exec. use Ht. use Hu. use Hl. reflexivity. Qed.

Lemma proxy_rejected target u :
  truthy target = true →
  new_URL P target None = Some u →
  Proxy.local_host (hostname u) = false →
  origin P (proxy_call target) = None →
  run (Proxy.handler P {| query_url := Some target |})
  = (reply 500 ∅ "Proxy fetch error", [proxy_call target]).
Proof.
  intros Ht Hu Hl Ho. unfold proxy_call in Ho.
  exec. use Ht. use Hu. use Hl. use Ho. reflexivity.
Qed.

Lemma proxy_unreadable target u r :
  truthy target = true →
  new_URL P target None = Some u →
  Proxy.local_host (hostname u) = false →
  origin P (proxy_call target) = Some r →
  text r = None →
  run (Proxy.handler P {| query_url := Some target |})
  = (reply 500 ∅ "Proxy fetch error", [proxy_call target]).
Proof.
  intros Ht Hu Hl Ho Htx. unfold proxy_call in Ho.
  exec. use Ht. use Hu. use Hl. use Ho. use Htx. reflexivity.
Qed.

Lemma proxy_redirect target u r t :
  truthy target = true →
  new_URL P target None = Some u →
  Proxy.local_host (hostname u) = false →
  origin P (proxy_call target) = Some r →
  text r = Some t →
  includes (default "" (headers_get r "content-type")) "text/html" = false →
  header_value target = true →
  run (Proxy.handler P {| query_url := Some target |})
  = (reply 302 {[ "Location" := target ]} "", [proxy_call target]).
Proof.
  intros Ht Hu Hl Ho Htx Hct Hv. unfold proxy_call in Ho.
  exec. use Ht. use Hu. use Hl. use Ho. use Htx. use Hct. use Hv.
  reflexivity.
Qed.

(** A target that is no header value makes [setHeader] throw after the
    status is set, and the [catch] block answers. *)
Lemma proxy_unsendable target u r t :
  truthy target = true →
  new_URL P target None = Some u →
  Proxy.local_host (hostname u) = false →
  origin P (proxy_call target) = Some r →
  text r = Some t →
  includes (default "" (headers_get r "content-type")) "text/html" = false →
  header_value target = false →
  run (Proxy.handler P {| query_url := Some target |})
  = (reply 500 ∅ "Proxy fetch error", [proxy_call target]).
Proof.
  intros Ht Hu Hl Ho Htx Hct Hv. unfold proxy_call in Ho.
  exec. use Ht. use Hu. use Hl. use Ho. use Htx. use Hct. use Hv.
  reflexivity.
Qed.

Lemma proxy_html target u r t :
  truthy target = true →
  new_URL P target None = Some u →
  Proxy.local_host (hostname u) = false →
  origin P (proxy_call target) = Some r →
  text r = Some t →
  includes (default "" (headers_get r "content-type")) "text/html" = true →
  run (Proxy.handler P {| query_url := Some target |})
  = (reply 200 {[ "Content-Type" := "text/html; charset=utf-8" ]}
       (cheerio_html P (Proxy.rewrite_page P u (cheerio_load P t))),
     [proxy_call target]).
Proof.
  intros Ht Hu Hl Ho Htx Hct. unfold proxy_call in Ho.
  exec. use Ht. use Hu. use Hl. use Ho. use Htx. use Hct. use html_content_type_value.
  reflexivity.
Qed.

(** Past the guard the proxy makes exactly one call, the GET of the target. *)
Lemma proxy_fetches target u :
  truthy target = true →
  new_URL P target None = Some u →
  Proxy.local_host (hostname u) = false →
  (run (Proxy.handler P {| query_url := Some target |})).2 = [proxy_call target].
Proof.
  intros Ht Hu Hl.
  destruct (origin P (proxy_call target)) as [r|] eqn:Ho;
    [| by rewrite (proxy_rejected target u)].
  destruct (text r) as [t|] eqn:Htx;
    [| by rewrite (proxy_unreadable target u r)].
  destruct (includes (default "" (headers_get r "content-type")) "text/html") eqn:Hct.
  - by rewrite (proxy_html target u r t).
  - destruct (header_value target) eqn:Hv.
    + by rewrite (proxy_redirect target u r t).
    + by rewrite (proxy_unsendable target u r t).
Qed.

Lemma download_missing :
  run (Download.handler P {| query_url := None |}) = (reply 400 ∅ "Missing url", []).
Proof. reflexivity. Qed.

Lemma download_empty :
  run (Download.handler P {| query_url := Some "" |}) = (reply 400 ∅ "Missing url", []).
Proof. reflexivity. Qed.

Lemma download_invalid fileUrl :
  truthy fileUrl = true →
  new_URL P fileUrl None = None →
  run (Download.handler P {| query_url := Some fileUrl |})
  = (reply 500 ∅ "Download error", []).
Proof. intros Ht Hu. exec. use Ht. use Hu. reflexivity. Qed.

Lemma download_local fileUrl u :
  truthy fileUrl = true →
  new_URL P fileUrl None = Some u →
  Download.local_host (hostname u) = true →
  run (Download.handler P {| query_url := Some fileUrl |})
  = (reply 400 ∅ "Local addresses not allowed", []).
Proof. intros Ht Hu Hl. exec. use Ht. use Hu. use Hl. reflexivity. Qed.

Lemma download_head_rejected fileUrl u :
  truthy fileUrl = true →
  new_URL P fileUrl None = Some u →
  Download.local_host (hostname u) = false →
  origin P (head_call fileUrl) = None →
  run (Download.handler P {| query_url := Some fileUrl |})
  = (reply 500 ∅ "Download error", [head_call fileUrl]).
Proof.
  intros Ht Hu Hl Ho. unfold head_call in Ho.
  exec. use Ht. use Hu. use Hl. use Ho. reflexivity.
Qed.

Lemma download_redirect fileUrl u head :
  truthy fileUrl = true →
  new_URL P fileUrl None = Some u →
  Download.local_host (hostname u) = false →
  origin P (head_call fileUrl) = Some head →
  Download.over_threshold (headers_get head "content-length") = true →
  header_value fileUrl = true →
  run (Download.handler P {| query_url := Some fileUrl |})
  = (reply 302 {[ "Location" := fileUrl ]} "", [head_call fileUrl]).
Proof.
  intros Ht Hu Hl Ho Hcl Hv. unfold head_call in Ho.
  exec. use Ht. use Hu. use Hl. use Ho. use Hcl. use Hv. reflexivity.
Qed.

(** A file URL that is no header value makes [writeHead] throw. *)
Lemma download_unsendable fileUrl u head :
  truthy fileUrl = true →
  new_URL P fileUrl None = Some u →
  Download.local_host (hostname u) = false →
  origin P (head_call fileUrl) = Some head →
  Download.over_threshold (headers_get head "content-length") = true →
  header_value fileUrl = false →
  run (Download.handler P {| query_url := Some fileUrl |})
  = (reply 500 ∅ "Download error", [head_call fileUrl]).
Proof.
  intros Ht Hu Hl Ho Hcl Hv. unfold head_call in Ho.
  exec. use Ht. use Hu. use Hl. use Ho. use Hcl. use Hv. reflexivity.
Qed.

Lemma download_get_rejected fileUrl u head :
  truthy fileUrl = true →
  new_URL P fileUrl None = Some u →
  Download.local_host (hostname u) = false →
  origin P (head_call fileUrl) = Some head →
  Download.over_threshold (headers_get head "content-length") = false →
  origin P (get_call fileUrl) = None →
  run (Download.handler P {| query_url := Some fileUrl |})
  = (reply 500 ∅ "Download error", [head_call fileUrl; get_call fileUrl]).
Proof.
  intros Ht Hu Hl Ho Hcl Hg. unfold head_call in Ho. unfold get_call in Hg.
  exec. use Ht. use Hu. use Hl. use Ho. use Hcl. use Hg. reflexivity.
Qed.

Lemma download_bad_gateway fileUrl u head r :
  truthy fileUrl = true →
  new_URL P fileUrl None = Some u →
  Download.local_host (hostname u) = false →
  origin P (head_call fileUrl) = Some head →
  Download.over_threshold (headers_get head "content-length") = false →
  origin P (get_call fileUrl) = Some r →
  ok r = false →
  run (Download.handler P {| query_url := Some fileUrl |})
  = (reply 502 ∅ "Failed to fetch file", [head_call fileUrl; get_call fileUrl]).
Proof.
  intros Ht Hu Hl Ho Hcl Hg Hok. unfold head_call in Ho. unfold get_call in Hg.
  exec. use Ht. use Hu. use Hl. use Ho. use Hcl. use Hg. use Hok. reflexivity.
Qed.

(** The GET answered with a success, the handler sets the headers of an
    attachment and then fails on the body: the stream of the fetch library
    has no [getReader], and a stream that has one is locked by it and has no
    [pipe].  The [catch] block answers, and the headers set stay. *)
Lemma download_relay_failed fileUrl u head r :
  truthy fileUrl = true →
  new_URL P fileUrl None = Some u →
  Download.local_host (hostname u) = false →
  origin P (head_call fileUrl) = Some head →
  Download.over_threshold (headers_get head "content-length") = false →
  origin P (get_call fileUrl) = Some r →
  ok r = true →
  run (Download.handler P {| query_url := Some fileUrl |})
  = (reply 500 (attachment P fileUrl r) "Download error",
     [head_call fileUrl; get_call fileUrl]).
Proof.
  intros Ht Hu Hl Ho Hcl Hg Hok. unfold head_call in Ho. unfold get_call in Hg.
  exec. use Ht. use Hu. use Hl. use Ho. use Hcl. use Hg. use Hok.
  unfold attachment, disposition.
  destruct (header_value _) eqn:Hcd; cbv beta iota zeta; [| reflexivity].
  use content_type_value.
  destruct (body r) as [b|]; cbv beta iota zeta; [| reflexivity].
  unfold getReader, has_getReader, has_pipe, read_buffer.
  destruct b as [[] bs []]; reflexivity.
Qed.

(** Past the guard and the HEAD, the download makes no other call when the
    size gate decides for the redirect, and the GET when it does not. *)
Lemma download_fetches_once fileUrl u head :
  truthy fileUrl = true →
  new_URL P fileUrl None = Some u →
  Download.local_host (hostname u) = false →
  origin P (head_call fileUrl) = Some head →
  Download.over_threshold (headers_get head "content-length") = true →
  (run (Download.handler P {| query_url := Some fileUrl |})).2 = [head_call fileUrl].
Proof.
  intros Ht Hu Hl Ho Hcl. destruct (header_value fileUrl) eqn:Hv.
  - by rewrite (download_redirect fileUrl u head).
  - by rewrite (download_unsendable fileUrl u head).
Qed.

Lemma download_fetches_twice fileUrl u head :
  truthy fileUrl = true →
  new_URL P fileUrl None = Some u →
  Download.local_host (hostname u) = false →
  origin P (head_call fileUrl) = Some head →
  Download.over_threshold (headers_get head "content-length") = false →
  (run (Download.handler P {| query_url := Some fileUrl |})).2
  = [head_call fileUrl; get_call fileUrl].
Proof.
  intros Ht Hu Hl Ho Hcl.
  destruct (origin P (get_call fileUrl)) as [r|] eqn:Hg;
    [| by rewrite (download_get_rejected fileUrl u head)].
  destruct (ok r) eqn:Hok.
  - by rewrite (download_relay_failed fileUrl u head r).
  - by rewrite (download_bad_gateway fileUrl u head r).
Qed.

End Cases.
End HandlerFacts.

(** ** Strings cut at a stop, and the reference [URL] class *)

Module WhatwgFacts.
Import JsString JsStringFacts Url Whatwg.

Lemma app_cons c a b : String c a +:+ b = String c (a +:+ b).
Proof. reflexivity. Qed.

Lemma app_empty b : "" +:+ b = b.
Proof. reflexivity. Qed.

Lemma app_empty_r a : a +:+ "" = a.
Proof. induction a as [|c a IH]; [done | by rewrite app_cons, IH]. Qed.

Lemma app_assoc' a b c : (a +:+ b) +:+ c = a +:+ (b +:+ c).
Proof. induction a as [|d a IH]; [done | by rewrite !app_cons, IH]. Qed.

Lemma cut_app stops a b :
  no_stop stops a = true → stopped stops b → cut stops (a +:+ b) = (a, b).
Proof.
  unfold no_stop. intros Ha Hb. induction a as [|c a IH].
  - rewrite app_empty. destruct b as [|d b]; [done |]. simpl in *. by rewrite Hb.
  - simpl in Ha. apply andb_true_iff in Ha as [Hc Ha].
    rewrite app_cons. simpl. apply negb_true_iff in Hc. rewrite Hc.
    by rewrite (IH Ha).
Qed.

Lemma cut_all stops a : no_stop stops a = true → cut stops a = (a, "").
Proof. intros Ha. rewrite <- (app_empty_r a) at 1. by apply cut_app. Qed.

(** ** Splitting *)

Lemma rev_app_app s x : String.rev_app s x = String.rev_app s "" +:+ x.
Proof.
  revert x. induction s as [|c s IH]; intros x; simpl; [done |].
  rewrite (IH (String c x)), (IH (String c "")), app_assoc'. done.
Qed.

Lemma rev_cons c s : String.rev (String c s) = String.rev s +:+ String c "".
Proof. unfold String.rev. simpl. apply rev_app_app. Qed.

Lemma split_go_cut sep cur s :
  split_go sep cur s =
    match cut (String sep "") s with
    | (a, "") => [String.rev cur +:+ a]
    | (a, String _ b) => (String.rev cur +:+ a) :: split_go sep "" b
    end.
Proof.
  revert cur. induction s as [|c s IH]; intros cur; simpl.
  - by rewrite app_empty_r.
  - rewrite orb_false_r. destruct (bool_decide (c = sep)) eqn:E.
    + by rewrite app_empty_r.
    + rewrite IH. destruct (cut (String sep "") s) as [a b].
      rewrite rev_cons, app_assoc'. done.
Qed.

(** ** The constructor

    Whatever a constructor answers beyond the model, on a covered input it
    answers what the model does. *)
Lemma new_URL_covered beyond input base :
  covered input base = true → new_URL_with beyond input base = new_URL input base.
Proof.
  unfold covered, new_URL, new_URL_with. by destruct (parse input base).
Qed.

(** A colon after an empty host is a failure in every scheme; a per cent
    sign in a path stays as it is, and [%2e] is a dot segment; tabs and line
    feeds are removed from the input. *)
Lemma parse_examples :
  parse "foo://:80/" None = Failure
  ∧ parse "http://:80/" None = Failure
  ∧ href <$> new_URL "https://example.com/a%0Ab" None = Some "https://example.com/a%0Ab"
  ∧ href <$> new_URL "https://example.com/a/%2E/b/%2e%2E/c" None
    = Some "https://example.com/a/c"
  ∧ href <$> new_URL (String "010" "https://example.com/" +:+ String "009" "x") None
    = Some "https://example.com/x".
Proof. repeat split; vm_compute; reflexivity. Qed.

End WhatwgFacts.

(** * The claims of the specification *)

Module Claims.
Import JsString JsStringFacts JsNumber JsNumberFacts Dom DomFacts Http Url Exchange.
Import Proxy ProxyFacts RewriterFacts HandlerFacts Spec Scenario.

(** ** The scenarios stay within the reference URL class *)

(** Every target the scenarios request, every reference of the pages
    resolved against the page's URL, and every URL such a reference resolves
    to, read back, is an input the model of the URL class covers: what the
    scenarios compute is the standard's answer. *)
Lemma scenarios_covered :
  forallb (λ target, Whatwg.covered target None) targets = true
  ∧ forallb (λ v, Whatwg.covered v (Some page_url))
      (references page_dom ++ references frames_dom) = true
  ∧ forallb (λ v, match Whatwg.new_URL v (Some page_url) with
                  | Some abs => Whatwg.covered (href abs) (Some page_url)
                  | None => true
                  end)
      (references page_dom ++ references frames_dom) = true
  ∧ Whatwg.new_URL page_url None = Some page_base
  ∧ Whatwg.parse "https://a:b/" (Some page_url) = Whatwg.Failure.
Proof. repeat split; vm_compute; reflexivity. Qed.

(** What the handlers answer in the scenarios does not depend on what the
    constructor answers beyond the model. *)
Lemma scenarios_any_completion beyond :
  Forall (λ target,
            run (Proxy.handler (world_with beyond) {| query_url := Some target |})
            = run (Proxy.handler world {| query_url := Some target |})
            ∧ run (Download.handler (world_with beyond) {| query_url := Some target |})
              = run (Download.handler world {| query_url := Some target |}))
    targets
  ∧ Forall (λ target,
              run (Proxy.handler (world'_with beyond) {| query_url := Some target |})
              = run (Proxy.handler world' {| query_url := Some target |})
              ∧ run (Download.handler (world'_with beyond) {| query_url := Some target |})
                = run (Download.handler world' {| query_url := Some target |}))
      targets'.
Proof.
  split; repeat (apply List.Forall_cons; [split; vm_compute; reflexivity |]);
    apply List.Forall_nil.
Qed.

(** ** The guard *)

Lemma proxy_local_host_spec h :
  Proxy.local_host h = true ↔ loopback_or_private h ∨ internal_suffix h.
Proof.
  unfold Proxy.local_host, loopback_or_private, internal_suffix.
  rewrite !orb_true_iff, !bool_decide_eq_true, startsWith_spec, endsWith_spec. tauto.
Qed.

Lemma download_local_host_spec h :
  Download.local_host h = true ↔ loopback_or_private h.
Proof.
  unfold Download.local_host, loopback_or_private.
  rewrite !orb_true_iff, !bool_decide_eq_true, startsWith_spec. tauto.
Qed.

(** Past its guard the download handler starts with the HEAD of the target. *)
Lemma download_fetches (P : Platform) fileUrl u :
  truthy fileUrl = true →
  new_URL P fileUrl None = Some u →
  Download.local_host (hostname u) = false →
  ∃ rest, (run (Download.handler P {| query_url := Some fileUrl |})).2
          = head_call fileUrl :: rest.
Proof.
  intros Ht Hu Hl.
  destruct (origin P (head_call fileUrl)) as [head|] eqn:Ho.
  - destruct (Download.over_threshold (headers_get head "content-length")) eqn:Hcl.
    + rewrite (download_fetches_once P fileUrl u head) by done. by eexists.
    + rewrite (download_fetches_twice P fileUrl u head) by done. by eexists.
  - rewrite (download_head_rejected P fileUrl u) by done. by eexists.
Qed.

(** C1, at the request [/download?url=http://db.internal/secret]: the host
    ends with [.internal]; the proxy handler answers 400 and calls nothing,
    the download handler sends a HEAD request to the internal host. *)
Theorem C1_download_calls_internal_host :
  Whatwg.new_URL "http://db.internal/secret" None
    = Some {| href := "http://db.internal/secret"; protocol := "http:";
              hostname := "db.internal"; pathname := "/secret" |}
  ∧ endsWith "db.internal" ".internal" = true
  ∧ run (Proxy.handler world {| query_url := Some "http://db.internal/secret" |})
    = (reply 400 ∅ "Local addresses not allowed", [])
  ∧ run (Download.handler world {| query_url := Some "http://db.internal/secret" |})
    = (reply 500 ∅ "Download error", [head_call "http://db.internal/secret"]).
Proof. repeat split; vm_compute; reflexivity. Qed.

(** What does hold of the guard, on every platform: the proxy handler
    refuses the four classes of host, the download handler the first three,
    each with 400 and before any outbound call. *)
Theorem guard_refuses (P : Platform) target u :
  target ≠ "" →
  new_URL P target None = Some u →
  (loopback_or_private (hostname u) ∨ internal_suffix (hostname u) →
   run (Proxy.handler P {| query_url := Some target |})
   = (reply 400 ∅ "Local addresses not allowed", []))
  ∧ (loopback_or_private (hostname u) →
     run (Download.handler P {| query_url := Some target |})
     = (reply 400 ∅ "Local addresses not allowed", [])).
Proof.
  intros Hne Hu. apply truthy_spec in Hne. split; intros Hh.
  - apply (proxy_local P target u); [done .. |]. by apply proxy_local_host_spec.
  - apply (download_local P target u); [done .. |]. by apply download_local_host_spec.
Qed.

Lemma guard_refuses_witness :
  run (Proxy.handler world {| query_url := Some "https://192.168.1.10:8443/admin" |})
  = (reply 400 ∅ "Local addresses not allowed", [])
  ∧ run (Download.handler world {| query_url := Some "https://192.168.1.10:8443/admin" |})
    = (reply 400 ∅ "Local addresses not allowed", []).
Proof.
  destruct (guard_refuses world "https://192.168.1.10:8443/admin"
              {| href := "https://192.168.1.10:8443/admin"; protocol := "https:";
                 hostname := "192.168.1.10"; pathname := "/admin" |})
    as [Hp Hd]; [done | vm_compute; reflexivity |].
  assert (loopback_or_private "192.168.1.10") as Hh
    by (right; right; by exists "1.10").
  split; [apply Hp; by left | by apply Hd].
Defined.

(** C2 as stated fails at [ftp://example.com/file.txt]: the URL parses, its
    scheme is [ftp:], and both handlers pass it to [fetch]. *)
Lemma C2_counterexample :
  Whatwg.new_URL "ftp://example.com/file.txt" None
    = Some {| href := "ftp://example.com/file.txt"; protocol := "ftp:";
              hostname := "example.com"; pathname := "/file.txt" |}
  ∧ (run (Proxy.handler world {| query_url := Some "ftp://example.com/file.txt" |})).2
    = [proxy_call "ftp://example.com/file.txt"]
  ∧ (run (Download.handler world {| query_url := Some "ftp://example.com/file.txt" |})).2
    = [head_call "ftp://example.com/file.txt"].
Proof. repeat split; vm_compute; reflexivity. Qed.

(** C2, amended: the guard looks at the host name only.  A target that
    parses as an absolute URL and whose host is not refused is passed to
    [fetch], by the proxy handler as its one GET and by the download handler
    as its HEAD, whatever the scheme of the URL. *)
Theorem C2_guard_ignores_scheme (P : Platform) target u :
  target ≠ "" →
  new_URL P target None = Some u →
  (Proxy.local_host (hostname u) = false →
   (run (Proxy.handler P {| query_url := Some target |})).2 = [proxy_call target])
  ∧ (Download.local_host (hostname u) = false →
     ∃ rest, (run (Download.handler P {| query_url := Some target |})).2
             = head_call target :: rest).
Proof.
  intros Hne Hu. apply truthy_spec in Hne. split; intros Hl.
  - by apply (proxy_fetches P target u).
  - by apply (download_fetches P target u).
Qed.

Lemma C2_witness :
  (run (Proxy.handler world {| query_url := Some "ftp://example.com/file.txt" |})).2
  = [proxy_call "ftp://example.com/file.txt"].
Proof.
  refine (proj1 (C2_guard_ignores_scheme world "ftp://example.com/file.txt"
                   {| href := "ftp://example.com/file.txt"; protocol := "ftp:";
                      hostname := "example.com"; pathname := "/file.txt" |} _ _) _).
  - done.
  - vm_compute. reflexivity.
  - vm_compute. reflexivity.
Defined.

(** C3, at the request [/download?url=not a url]: the value does not parse;
    the proxy handler answers 400, the download handler 500, and neither
    calls anything. *)
Theorem C3_download_invalid_url_is_500 :
  Whatwg.parse "not a url" None = Whatwg.Failure
  ∧ run (Proxy.handler world {| query_url := Some "not a url" |})
    = (reply 400 ∅ "Invalid URL", [])
  ∧ run (Download.handler world {| query_url := Some "not a url" |})
    = (reply 500 ∅ "Download error", []).
Proof. repeat split; vm_compute; reflexivity. Qed.

(** What does hold for a value that does not parse, on every platform:
    no outbound call, 400 from the proxy handler and 500 from the download
    handler. *)
Theorem invalid_url (P : Platform) target :
  target ≠ "" →
  new_URL P target None = None →
  run (Proxy.handler P {| query_url := Some target |}) = (reply 400 ∅ "Invalid URL", [])
  ∧ run (Download.handler P {| query_url := Some target |})
    = (reply 500 ∅ "Download error", []).
Proof.
  intros Hne Hu. apply truthy_spec in Hne. split.
  - by apply proxy_invalid.
  - by apply download_invalid.
Qed.

Lemma invalid_url_witness :
  run (Proxy.handler world {| query_url := Some "example.com/page" |})
  = (reply 400 ∅ "Invalid URL", [])
  ∧ run (Download.handler world {| query_url := Some "example.com/page" |})
    = (reply 500 ∅ "Download error", []).
Proof. apply (invalid_url world "example.com/page"); [done | vm_compute; reflexivity]. Defined.

(** ** The download dispatcher *)

(** C4, at the request [/download?url=https://example.com/small.bin]: the
    HEAD is answered with a content length of 29 * 1024 * 1024, the GET is
    issued and answered with a success whose body is the stream of the
    fetch library, and the handler does not relay the file: it answers 500
    ['Download error'], with the headers of the attachment it had set.  The
    same at a file whose HEAD names no content length. *)
Theorem C4_small_file_is_not_streamed :
  decimal_value "30408704" = (29 * 1024 * 1024)%Z
  ∧ origin world (head_call "https://example.com/small.bin")
    = Some (head_response (Some "30408704"))
  ∧ origin world (head_call "https://example.com/unsized.bin")
    = Some (head_response None)
  ∧ origin world (get_call "https://example.com/small.bin")
    = Some (html_response "application/octet-stream" "bytes")
  ∧ origin world (get_call "https://example.com/unsized.bin")
    = Some (html_response "application/octet-stream" "bytes")
  ∧ ok (html_response "application/octet-stream" "bytes") = true
  ∧ body (html_response "application/octet-stream" "bytes")
    = Some {| stream := NodeReadable; bytes := "bytes"; locked := false |}
  ∧ run (Download.handler world {| query_url := Some "https://example.com/small.bin" |})
    = (reply 500
         (<[ "Content-Type" := "application/octet-stream" ]>
          (<[ "Content-Disposition" :=
                "attachment; filename=" +:+ Download.quote +:+ "small.bin"
                +:+ Download.quote ]> ∅))
         "Download error",
       [head_call "https://example.com/small.bin";
        get_call "https://example.com/small.bin"])
  ∧ run (Download.handler world {| query_url := Some "https://example.com/unsized.bin" |})
    = (reply 500
         (<[ "Content-Type" := "application/octet-stream" ]>
          (<[ "Content-Disposition" :=
                "attachment; filename=" +:+ Download.quote +:+ "unsized.bin"
                +:+ Download.quote ]> ∅))
         "Download error",
       [head_call "https://example.com/unsized.bin";
        get_call "https://example.com/unsized.bin"]).
Proof. repeat split; vm_compute; reflexivity. Qed.

(** ** The content-type branch of the proxy *)

(** C5 as stated fails at [/proxy?url=https://example.com/archive]: the
    origin's content type, [multipart/related; type=text/html], does not
    begin with [text/html], and the handler answers 200 with the rewritten
    page, without a [Location] header. *)
Lemma C5_counterexample :
  headers_get (html_response "multipart/related; type=text/html" page_text) "content-type"
    = Some "multipart/related; type=text/html"
  ∧ startsWith "multipart/related; type=text/html" "text/html" = false
  ∧ run (Proxy.handler world {| query_url := Some "https://example.com/archive" |})
    = (reply 200 {[ "Content-Type" := "text/html; charset=utf-8" ]}
         (render (rewrite_page world
                    {| href := "https://example.com/archive"; protocol := "https:";
                       hostname := "example.com"; pathname := "/archive" |}
                    page_dom)),
       [proxy_call "https://example.com/archive"]).
Proof. repeat split; vm_compute; reflexivity. Qed.

(** C5, amended: past the guard, with an answer from the origin whose body
    could be read, the handler answers 302 with [Location] the target
    exactly when [text/html] occurs nowhere in the content type and the
    target is a header value; 200 with content type
    [text/html; charset=utf-8] and the rewritten page exactly when
    [text/html] occurs somewhere in the content type; and 500
    ['Proxy fetch error'] exactly when [text/html] occurs nowhere in it and
    the target holds a character no header value may hold, on which setting
    [Location] throws. *)
Theorem C5_content_type_branch (P : Platform) target u r t :
  target ≠ "" →
  new_URL P target None = Some u →
  Proxy.local_host (hostname u) = false →
  origin P (proxy_call target) = Some r →
  text r = Some t →
  (run (Proxy.handler P {| query_url := Some target |})
   = (reply 302 {[ "Location" := target ]} "", [proxy_call target])
   ↔ ¬ contains (default "" (headers_get r "content-type")) "text/html"
     ∧ header_value target = true)
  ∧ (run (Proxy.handler P {| query_url := Some target |})
     = (reply 200 {[ "Content-Type" := "text/html; charset=utf-8" ]}
          (cheerio_html P (rewrite_page P u (cheerio_load P t))),
        [proxy_call target])
     ↔ contains (default "" (headers_get r "content-type")) "text/html")
  ∧ (run (Proxy.handler P {| query_url := Some target |})
     = (reply 500 ∅ "Proxy fetch error", [proxy_call target])
     ↔ ¬ contains (default "" (headers_get r "content-type")) "text/html"
       ∧ header_value target = false).
Proof.
  intros Hne Hu Hl Ho Htx. apply truthy_spec in Hne.
  unfold contains. rewrite <- includes_spec.
  destruct (includes (default "" (headers_get r "content-type")) "text/html") eqn:Hct.
  - rewrite (proxy_html P target u r t) by done.
    split; [| split]; split; try done; by intros [Hc _].
  - destruct (header_value target) eqn:Hv.
    + rewrite (proxy_redirect P target u r t) by done.
      split; [| split]; split; try done; by intros [_ Hc].
    + rewrite (proxy_unsendable P target u r t) by done.
      split; [| split]; split; try done; by intros [_ Hc].
Qed.

Lemma C5_witness :
  run (Proxy.handler world {| query_url := Some "https://example.com/img.png" |})
  = (reply 302 {[ "Location" := "https://example.com/img.png" ]} "",
     [proxy_call "https://example.com/img.png"]).
Proof.
  refine (proj2 (proj1
    (C5_content_type_branch world "https://example.com/img.png"
       {| href := "https://example.com/img.png"; protocol := "https:";
          hostname := "example.com"; pathname := "/img.png" |}
       (html_response "image/png" "PNG") "PNG" _ _ _ _ _)) _);
    [done | vm_compute; reflexivity .. |].
  split; [| vm_compute; reflexivity].
  intros Hc. unfold contains in Hc. apply includes_spec in Hc.
  vm_compute in Hc. discriminate.
Defined.

(** ** The rewriter *)

(** The fragment appended to the body is the template literal, parsed. *)
Lemma injected_dom_renders : render injected_dom = injected.
Proof. vm_compute. reflexivity. Qed.

(** C6: for the tree of an HTML page, the rewritten page holds exactly one
    probe block more than the page did when the page has a body element,
    appended as the last children of that element, and no more when it has
    none; then the injection step changes nothing and is no error. *)
Theorem C6_one_probe_block (P : Platform) (base : URL) (d : document) :
  html_document d →
  (0 < count is_body d →
   count is_probe (rewrite_page P base d) = count is_probe d + 1
   ∧ ∀ p a cs, node_at p d = Some (Element "body" a cs) →
       ∃ cs', node_at p (rewrite_page P base d)
              = Some (Element "body" a (cs' ++ injected_dom))
              ∧ length cs' = length cs)
  ∧ (count is_body d = 0 →
     count is_probe (rewrite_page P base d) = count is_probe d
     ∧ rewrite_page P base d = absolutize P base d).
Proof.
  unfold html_document. intros Hd. split; intros Hn.
  - split; [rewrite probe_count; lia |].
    intros p a cs Hp. rewrite rewrite_page_transform.
    rewrite (node_at_transform _ _ p d _ Hp). cbn [transform].
    exists (transform (abs_attrs P base) (only "body" injected_dom []) <$> cs).
    split; [| by rewrite length_fmap]. by rewrite abs_attrs_class.
  - split; [rewrite probe_count; lia | by apply no_body].
Qed.

Lemma C6_witness :
  count is_probe (rewrite_page world page_base page_dom) = count is_probe page_dom + 1
  ∧ (∃ cs', node_at [0; 1] (rewrite_page world page_base page_dom)
            = Some (Element "body" ∅ (cs' ++ injected_dom))
            ∧ length cs' = length page_body)
  ∧ count is_probe (rewrite_page world page_base frames_dom) = count is_probe frames_dom
  ∧ rewrite_page world page_base frames_dom = absolutize world page_base frames_dom.
Proof.
  assert (Hpage : html_document page_dom) by (vm_compute; lia).
  assert (Hframes : html_document frames_dom) by (vm_compute; lia).
  destruct (proj1 (C6_one_probe_block world page_base page_dom Hpage)) as [Hc Hlast];
    [vm_compute; lia |].
  destruct (proj2 (C6_one_probe_block world page_base frames_dom Hframes)) as [Hc0 Hsame];
    [vm_compute; reflexivity |].
  split; [exact Hc |]. split; [| split; [exact Hc0 | exact Hsame]].
  exact (Hlast [0; 1] ∅ page_body eq_refl).
Defined.

Lemma abs_attrs_rewritten (P : Platform) (base : URL) nm a :
  rewritten P base nm a (abs_attrs P base nm a).
Proof.
  unfold rewritten. rewrite abs_attrs_class.
  destruct (attribute_class nm) as [k|]; [| done].
  unfold abs_attr. destruct (a !! k) as [v|]; [| done]. split.
  - intros Hs%skipped_spec. destruct (negb (truthy v)); [done |].
    simpl in Hs. by rewrite Hs.
  - intros Hn.
    destruct (negb (truthy v) || skip_re v) eqn:Hs;
      [exfalso; by apply Hn, skipped_spec |].
    apply orb_false_iff in Hs as [-> ->]. by destruct (new_URL P v _).
Qed.

(** C7: every element of the page is where it was after the six passes,
    with its tag name and as many children, and its attributes follow the
    rule: the reference of its class stays when it is absent, empty, or
    begins with [data:], [mailto:], [javascript:] or [#] whatever the case
    of the letters; otherwise it becomes what it resolves to against the
    base, and stays when it does not resolve.  Whatever resolves or not,
    the request is answered 200 with the rewritten page. *)
Theorem C7_absolutize (P : Platform) (base : URL) (d : document) :
  (∀ p nm a cs, node_at p d = Some (Element nm a cs) →
     ∃ a' cs', node_at p (absolutize P base d) = Some (Element nm a' cs')
               ∧ length cs' = length cs
               ∧ rewritten P base nm a a')
  ∧ (∀ target r t,
       target ≠ "" →
       new_URL P target None = Some base →
       Proxy.local_host (hostname base) = false →
       origin P (proxy_call target) = Some r →
       contains (default "" (headers_get r "content-type")) "text/html" →
       text r = Some t →
       cheerio_load P t = d →
       run (Proxy.handler P {| query_url := Some target |})
       = (reply 200 {[ "Content-Type" := "text/html; charset=utf-8" ]}
            (cheerio_html P (inject (absolutize P base d))),
          [proxy_call target])).
Proof.
  split.
  - intros p nm a cs Hp. rewrite absolutize_transform.
    rewrite (node_at_transform _ _ p d _ Hp). cbn [transform].
    eexists _, _. split; [reflexivity |]. split.
    + by rewrite app_nil_r, length_fmap.
    + apply abs_attrs_rewritten.
  - intros target r t Hne Hu Hl Ho Hct Htx Hload.
    apply truthy_spec in Hne. unfold contains in Hct. rewrite <- includes_spec in Hct.
    rewrite (proxy_html P target base r t Hne Hu Hl Ho Htx Hct).
    by rewrite Hload.
Qed.

Lemma C7_witness :
  (∃ a' cs', node_at [0; 1; 0] (absolutize world page_base page_dom)
             = Some (Element "a" a' cs')
             ∧ length cs' = 1
             ∧ rewritten world page_base "a" {[ "href" := "/x.mp4" ]} a')
  ∧ (∃ a' cs', node_at [0; 1; 4] (absolutize world page_base page_dom)
               = Some (Element "a" a' cs')
               ∧ length cs' = 1
               ∧ rewritten world page_base "a" {[ "href" := "https://a:b/" ]} a')
  ∧ run (Proxy.handler world {| query_url := Some page_url |})
    = (reply 200 {[ "Content-Type" := "text/html; charset=utf-8" ]}
         (render (inject (absolutize world page_base page_dom))),
       [proxy_call page_url]).
Proof.
  split; [| split].
  - apply (proj1 (C7_absolutize world page_base page_dom) [0; 1; 0] "a" _ [Text "x"]).
    reflexivity.
  - apply (proj1 (C7_absolutize world page_base page_dom) [0; 1; 4] "a" _ [Text "odd"]).
    reflexivity.
  - apply (proj2 (C7_absolutize world page_base page_dom) page_url
             (html_response "text/html; charset=utf-8" page_text) page_text);
      [done | vm_compute; reflexivity .. | | reflexivity | reflexivity].
    by exists "", "; charset=utf-8".
Defined.

(** C8 as stated fails at the value [http://example.com]: it is an
    absolute URL, and the pass rewrites it to [http://example.com/]. *)
Lemma C8_counterexample :
  Whatwg.new_URL "http://example.com" None
    = Some {| href := "http://example.com/"; protocol := "http:";
              hostname := "example.com"; pathname := "/" |}
  ∧ absolutize world page_base [Element "a" {[ "href" := "http://example.com" ]} []]
    = [Element "a" {[ "href" := "http://example.com/" ]} []]
  ∧ "http://example.com/" ≠ "http://example.com".
Proof. repeat split; [vm_compute; reflexivity .. | discriminate]. Qed.

(** C8, amended: the pass writes the serialisation of the URL a value
    resolves to, which need not be the value as written; where the URL
    class reads its serialisations of the references of the page back to
    themselves, the pass applied twice with the same base is the pass
    applied once. *)
Theorem C8_absolutize_twice (P : Platform) (base : URL) (d : document) :
  forallb (stable P base) (references d) = true →
  absolutize P base (absolutize P base d) = absolutize P base d.
Proof. apply absolutize_twice. Qed.

Lemma C8_witness :
  absolutize world page_base (absolutize world page_base page_dom)
  = absolutize world page_base page_dom.
Proof. apply (C8_absolutize_twice world page_base page_dom). vm_compute. reflexivity. Defined.

(** ** Outbound calls and the missing parameter *)

(** C9, at the request [/download?url=https://example.com/small.bin]: the
    handler makes its HEAD and its GET, and neither names a [User-Agent]
    header; the one call of the proxy handler does. *)
Theorem C9_download_calls_name_no_user_agent :
  (run (Download.handler world {| query_url := Some "https://example.com/small.bin" |})).2
    = [head_call "https://example.com/small.bin"; get_call "https://example.com/small.bin"]
  ∧ init_headers (call_init (head_call "https://example.com/small.bin")) = ∅
  ∧ init_headers (call_init (get_call "https://example.com/small.bin")) = ∅
  ∧ (run (Proxy.handler world {| query_url := Some page_url |})).2 = [proxy_call page_url]
  ∧ init_headers (call_init (proxy_call page_url)) !! "User-Agent"
    = Some "Mozilla/5.0 (compatible; VercelProxy/1.0)".
Proof. repeat split; vm_compute; reflexivity. Qed.

(** C10: a [url] parameter that is the empty string is answered as a
    missing one, 400 with the handler's message and no outbound call, on
    every platform: the URL class has no part in the answer. *)
Theorem C10_empty_url_is_missing (P : Platform) :
  run (Proxy.handler P {| query_url := Some "" |})
  = (reply 400 ∅ "Missing url query parameter", [])
  ∧ run (Download.handler P {| query_url := Some "" |})
    = (reply 400 ∅ "Missing url", []).
Proof. split; [apply proxy_empty | apply download_empty]. Qed.

(** ** Further properties of the two handlers *)

(** Every call the proxy handler makes names the user agent of the source,
    and no call of the download handler names any header, on every
    platform and for every request. *)
Theorem calls_and_user_agent (P : Platform) (req : NextApiRequest) :
  (∀ c, c ∈ (run (Proxy.handler P req)).2 →
        init_headers (call_init c) !! "User-Agent" = Some Proxy.user_agent)
  ∧ (∀ c, c ∈ (run (Download.handler P req)).2 → init_headers (call_init c) = ∅).
Proof.
  destruct req as [[target|]]; [| split; intros c Hc; by apply elem_of_nil in Hc].
  destruct (truthy target) eqn:Ht.
  2: { apply truthy_spec_false in Ht as ->.
       split; intros c Hc; by apply elem_of_nil in Hc. }
  destruct (new_URL P target None) as [u|] eqn:Hu.
  2: { rewrite (proxy_invalid P target Ht Hu), (download_invalid P target Ht Hu).
       split; intros c Hc; by apply elem_of_nil in Hc. }
  split.
  - destruct (Proxy.local_host (hostname u)) eqn:Hl.
    + rewrite (proxy_local P target u Ht Hu Hl). intros c Hc. by apply elem_of_nil in Hc.
    + rewrite (proxy_fetches P target u Ht Hu Hl). intros c Hc.
      apply list_elem_of_singleton in Hc as ->. reflexivity.
  - destruct (Download.local_host (hostname u)) eqn:Hl.
    + rewrite (download_local P target u Ht Hu Hl). intros c Hc. by apply elem_of_nil in Hc.
    + destruct (origin P (head_call target)) as [head|] eqn:Ho.
      * destruct (Download.over_threshold (headers_get head "content-length")) eqn:Hcl.
        -- rewrite (download_fetches_once P target u head Ht Hu Hl Ho Hcl). intros c Hc.
           apply list_elem_of_singleton in Hc as ->. reflexivity.
        -- rewrite (download_fetches_twice P target u head Ht Hu Hl Ho Hcl).
           intros c Hc. repeat (apply elem_of_cons in Hc as [-> | Hc]; [reflexivity |]).
           by apply elem_of_nil in Hc.
      * rewrite (download_head_rejected P target u Ht Hu Hl Ho). intros c Hc.
        apply list_elem_of_singleton in Hc as ->. reflexivity.
Qed.

(** The rewriter appends one probe block for each body element the
    selection [$('body')] finds, whatever their number. *)
Theorem one_probe_block_per_body (P : Platform) (base : URL) (d : document) :
  count is_probe (rewrite_page P base d) = count is_probe d + count is_body d.
Proof. apply probe_count. Qed.

(** What comes of the GET of the download handler: 502 when the origin's
    answer is not a success; and when it is one, never the file, but 500
    ['Download error']: with the two headers of the attachment set, when
    the file name makes a header value and the handler gets as far as the
    body, where it fails; with no header, when the file name holds a
    character no header value may hold and [setHeader] throws. *)
Theorem download_relay (P : Platform) fileUrl u head r :
  fileUrl ≠ "" →
  new_URL P fileUrl None = Some u →
  Download.local_host (hostname u) = false →
  origin P (head_call fileUrl) = Some head →
  Download.over_threshold (headers_get head "content-length") = false →
  origin P (get_call fileUrl) = Some r →
  (ok r = false →
   run (Download.handler P {| query_url := Some fileUrl |})
   = (reply 502 ∅ "Failed to fetch file", [head_call fileUrl; get_call fileUrl]))
  ∧ (ok r = true → header_value (disposition P fileUrl) = true →
     run (Download.handler P {| query_url := Some fileUrl |})
     = (reply 500
          (<[ "Content-Type" :=
                Download.or_else (headers_get r "content-type") "application/octet-stream" ]>
           (<[ "Content-Disposition" :=
                 "attachment; filename=" +:+ Download.quote
                 +:+ Download.filename_of P fileUrl +:+ Download.quote ]> ∅))
          "Download error",
        [head_call fileUrl; get_call fileUrl]))
  ∧ (ok r = true → header_value (disposition P fileUrl) = false →
     run (Download.handler P {| query_url := Some fileUrl |})
     = (reply 500 ∅ "Download error", [head_call fileUrl; get_call fileUrl])).
Proof.
  intros Hne Hu Hl Ho Hcl Hg. apply truthy_spec in Hne. split; [| split].
  - intros Hok. by apply (download_bad_gateway P fileUrl u head r).
  - intros Hok Hv. rewrite (download_relay_failed P fileUrl u head r) by done.
    unfold attachment. by rewrite Hv.
  - intros Hok Hv. rewrite (download_relay_failed P fileUrl u head r) by done.
    unfold attachment. by rewrite Hv.
Qed.

Lemma download_relay_witness :
  run (Download.handler world {| query_url := Some "https://example.com/small.bin" |})
  = (reply 500
       (<[ "Content-Type" := "application/octet-stream" ]>
        (<[ "Content-Disposition" :=
              "attachment; filename=" +:+ Download.quote +:+ "small.bin"
              +:+ Download.quote ]> ∅))
       "Download error",
     [head_call "https://example.com/small.bin"; get_call "https://example.com/small.bin"])
  ∧ run (Download.handler world' {| query_url := Some "https://example.com/a%0Ab" |})
    = (reply 500 ∅ "Download error",
       [head_call "https://example.com/a%0Ab"; get_call "https://example.com/a%0Ab"]).
Proof.
  split.
  - refine (proj1 (proj2
      (download_relay world "https://example.com/small.bin"
         {| href := "https://example.com/small.bin"; protocol := "https:";
            hostname := "example.com"; pathname := "/small.bin" |}
         (head_response (Some "30408704"))
         (html_response "application/octet-stream" "bytes") _ _ _ _ _ _)) _ _);
      [done | vm_compute; reflexivity .. ].
  - refine (proj2 (proj2
      (download_relay world' "https://example.com/a%0Ab"
         {| href := "https://example.com/a%0Ab"; protocol := "https:";
            hostname := "example.com"; pathname := "/a%0Ab" |}
         (head_response None)
         (html_response "application/octet-stream" "bytes") _ _ _ _ _ _)) _ _);
      [done | vm_compute; reflexivity .. ].
Defined.

End Claims.

(** * Further properties of the code *)

(** ** The handlers, row by row *)

Module TableFacts.
Import JsString JsStringFacts JsNumber Dom Http Url Exchange Table HandlerFacts.

(** Opens the guard of the row at hand. *)
Ltac open_guard :=
  repeat match goal with
  | H : admitted _ _ _ _ |- _ => destruct H as (? & ? & ? & ? & ?)
  end.

Section Rows.
Variable P : Platform.

(** Every exchange of the proxy handler is a row of its table. *)
Lemma proxy_table req : proxy_row P req (run (Proxy.handler P req)).
Proof.
  destruct req as [[target|]]; [| rewrite proxy_missing; constructor; by left].
  destruct (truthy target) eqn:Ht.
  2: { apply truthy_spec_false in Ht as ->. rewrite proxy_empty. constructor. by right. }
  assert (Hne := proj1 (truthy_spec target) Ht).
  destruct (new_URL P target None) as [u|] eqn:Hu.
  2: { rewrite (proxy_invalid P target Ht Hu). by eapply proxy_row_invalid. }
  destruct (Proxy.local_host (hostname u)) eqn:Hl.
  { rewrite (proxy_local P target u Ht Hu Hl). by eapply proxy_row_local. }
  assert (Hadm : admitted P Proxy.local_host {| query_url := Some target |} target)
    by (split; [done | split; [done | by exists u]]).
  destruct (origin P (proxy_call target)) as [r|] eqn:Ho.
  2: { rewrite (proxy_rejected P target u Ht Hu Hl Ho). eapply proxy_row_error; eauto. }
  destruct (text r) as [t|] eqn:Htx.
  2: { rewrite (proxy_unreadable P target u r Ht Hu Hl Ho Htx).
       eapply proxy_row_error; eauto. }
  destruct (includes (default "" (headers_get r "content-type")) "text/html") eqn:Hct.
  - rewrite (proxy_html P target u r t Ht Hu Hl Ho Htx Hct). by eapply proxy_row_html.
  - destruct (header_value target) eqn:Hv.
    + rewrite (proxy_redirect P target u r t Ht Hu Hl Ho Htx Hct Hv).
      by eapply proxy_row_redirect.
    + rewrite (proxy_unsendable P target u r t Ht Hu Hl Ho Htx Hct Hv).
      by eapply proxy_row_unsendable.
Qed.

(** Every exchange of the download handler is a row of its table. *)
Lemma download_table req : download_row P req (run (Download.handler P req)).
Proof.
  destruct req as [[fileUrl|]]; [| rewrite download_missing; constructor; by left].
  destruct (truthy fileUrl) eqn:Ht.
  2: { apply truthy_spec_false in Ht as ->. rewrite download_empty. constructor. by right. }
  assert (Hne := proj1 (truthy_spec fileUrl) Ht).
  destruct (new_URL P fileUrl None) as [u|] eqn:Hu.
  2: { rewrite (download_invalid P fileUrl Ht Hu). by eapply download_row_invalid. }
  destruct (Download.local_host (hostname u)) eqn:Hl.
  { rewrite (download_local P fileUrl u Ht Hu Hl). by eapply download_row_local. }
  assert (Hadm : admitted P Download.local_host {| query_url := Some fileUrl |} fileUrl)
    by (split; [done | split; [done | by exists u]]).
  destruct (origin P (head_call fileUrl)) as [head|] eqn:Ho.
  2: { rewrite (download_head_rejected P fileUrl u Ht Hu Hl Ho).
       by eapply download_row_head_rejected. }
  destruct (Download.over_threshold (headers_get head "content-length")) eqn:Hcl.
  { destruct (header_value fileUrl) eqn:Hv.
    - rewrite (download_redirect P fileUrl u head Ht Hu Hl Ho Hcl Hv).
      by eapply download_row_redirect.
    - rewrite (download_unsendable P fileUrl u head Ht Hu Hl Ho Hcl Hv).
      by eapply download_row_unsendable. }
  assert (Hrel : relays P fileUrl) by (split; [done | by exists u, head]).
  destruct (origin P (get_call fileUrl)) as [r|] eqn:Hg.
  2: { rewrite (download_get_rejected P fileUrl u head Ht Hu Hl Ho Hcl Hg).
       by eapply download_row_get_rejected. }
  destruct (ok r) eqn:Hok.
  - rewrite (download_relay_failed P fileUrl u head r Ht Hu Hl Ho Hcl Hg Hok).
    by eapply download_row_relay_failed.
  - rewrite (download_bad_gateway P fileUrl u head r Ht Hu Hl Ho Hcl Hg Hok).
    by eapply download_row_bad_gateway.
Qed.

Ltac step :=
  match goal with
  | |- context [truthy ?x] => destruct (truthy x)
  | |- context [new_URL P ?a ?b] => destruct (new_URL P a b)
  | |- context [Proxy.local_host ?h] => destruct (Proxy.local_host h)
  | |- context [Download.local_host ?h] => destruct (Download.local_host h)
  | |- context [origin P ?c] => destruct (origin P c)
  | |- context [Download.over_threshold ?x] => destruct (Download.over_threshold x)
  | |- context [Http.text ?r] => destruct (Http.text r)
  | |- context [includes ?a ?b] => destruct (includes a b)
  | |- context [ok ?r] => destruct (ok r)
  | |- context [header_value ?v] => destruct (header_value v)
  | |- context [body ?r] => destruct (body r)
  | |- context [getReader ?b] =>
      unfold getReader, has_getReader, has_pipe, read_buffer; destruct b as [[] ? []]
  end; cbv beta iota zeta.

(** No exception leaves a handler: whatever is thrown on the way is caught. *)
Lemma proxy_returns req s : (Proxy.handler P req s).1 = Value ().
Proof. destruct req as [[target|]]; exec; repeat step; reflexivity. Qed.

Lemma download_returns req s : (Download.handler P req s).1 = Value ().
Proof. destruct req as [[fileUrl|]]; exec; repeat step; reflexivity. Qed.

End Rows.

End TableFacts.

(** ** The last segment of a path, and [parseInt] past the digits *)

Module DownloadFacts.
Import JsString JsStringFacts JsNumber JsNumberFacts Http Url Exchange Table.
Import HandlerFacts WhatwgFacts TableFacts Spec.

(** ** The last segment of a path *)

Lemma includes_no_stop s c :
  includes s (String c "") = false → Whatwg.no_stop (String c "") s = true.
Proof.
  unfold Whatwg.no_stop. induction s as [|d s IH]; [done |].
  cbn [includes]. intros H. apply orb_false_iff in H as [Hd Hs].
  cbn [Whatwg.all_chars]. rewrite (IH Hs), andb_true_r.
  cbn in Hd. rewrite andb_true_r in Hd. cbn. rewrite orb_false_r.
  apply negb_true_iff, bool_decide_eq_false. apply bool_decide_eq_false in Hd. congruence.
Qed.

Lemma split_go_whole sep cur s :
  Whatwg.no_stop (String sep "") s = true → split_go sep cur s = [String.rev cur +:+ s].
Proof. intros Hs. by rewrite split_go_cut, (cut_all _ _ Hs). Qed.

Lemma last_split_go sep cur t seg :
  Whatwg.no_stop (String sep "") seg = true →
  last (split_go sep cur (t +:+ String sep seg)) = Some seg.
Proof.
  intros Hseg. revert cur. induction t as [|c t IH]; intros cur.
  - rewrite app_empty. cbn [split_go]. rewrite bool_decide_eq_true_2 by done.
    by rewrite last_cons, (split_go_whole _ _ _ Hseg).
  - rewrite app_cons. cbn [split_go]. case_bool_decide; [| apply IH].
    rewrite last_cons, IH. done.
Qed.

(** [p.split('/').pop()] is what stands after the last slash of [p], and
    [p] itself when it has no slash. *)
Lemma pop_split_after t seg :
  includes seg "/" = false → pop (split (t +:+ "/" +:+ seg) "/") = Some seg.
Proof. intros H. apply last_split_go. by apply includes_no_stop. Qed.

Lemma pop_split_whole seg : includes seg "/" = false → pop (split seg "/") = Some seg.
Proof.
  intros H. unfold pop, split. by rewrite (split_go_whole _ _ _ (includes_no_stop _ _ H)).
Qed.

(** ** The size gate *)

(** The test of the handler on a header that HTTP allows: a run of digits
    is over the threshold when its decimal value is. *)
Lemma over_threshold_decimal cl :
  cl ≠ "" → all_digits cl = true →
  Download.over_threshold (Some cl)
  = bool_decide (Download.threshold < decimal_value cl)%Z.
Proof.
  intros Hne Hd. unfold Download.over_threshold.
  rewrite (proj2 (truthy_spec cl) Hne), (parseInt_decimal cl Hne Hd). done.
Qed.

End DownloadFacts.

(** ** The passes of the rewriter *)

Module PassFacts.
Import JsString JsStringFacts Dom DomFacts Url Proxy ProxyFacts RewriterFacts Spec.

Section Passes.
Variable P : Platform.
Variable base : URL.

(** ** What the callback leaves alone *)

Lemma abs_attr_lookup_ne k j a : j ≠ k → abs_attr P base k a !! j = a !! j.
Proof.
  intros Hj. unfold abs_attr. destruct (a !! k) as [val|]; [| done].
  destruct (negb (truthy val)); [done |]. destruct (skip_re val); [done |].
  destruct (new_URL P val (Some (href base))); [| done].
  by rewrite lookup_insert_ne.
Qed.

Lemma abs_attr_lookup_is_Some k a :
  is_Some (abs_attr P base k a !! k) ↔ is_Some (a !! k).
Proof.
  unfold abs_attr. destruct (a !! k) as [val|] eqn:Hk; [| by rewrite Hk].
  destruct (negb (truthy val)); [by rewrite Hk |]. destruct (skip_re val); [by rewrite Hk |].
  destruct (new_URL P val (Some (href base))); [| by rewrite Hk].
  rewrite lookup_insert_eq. split; eauto.
Qed.

Lemma blank_abs_attrs nm a : blank_attribs nm (abs_attrs P base nm a) = blank_attribs nm a.
Proof.
  unfold blank_attribs. rewrite abs_attrs_class.
  destruct (attribute_class nm) as [k|]; [| done].
  apply map_eq. intros j. destruct (decide (j = k)) as [-> | Hj].
  - rewrite !lookup_alter_eq.
    destruct (abs_attr_lookup_is_Some k a) as [H1 H2].
    destruct (abs_attr P base k a !! k) eqn:E1, (a !! k) eqn:E2; try done.
    + by destruct H1.
    + by destruct H2.
  - by rewrite !lookup_alter_ne, abs_attr_lookup_ne.
Qed.

Lemma blank_absolutize (d : document) : blank (absolutize P base d) = blank d.
Proof.
  unfold blank. rewrite absolutize_transform, transform_compose_doc.
  apply list_fmap_ext. intros i n _. apply transform_ext; [| done].
  apply blank_abs_attrs.
Qed.

(** ** The order of the calls *)

Lemma makeAbs_commute s1 a1 s2 a2 (d : document) :
  s1 ≠ s2 →
  makeAbs P base s1 a1 (makeAbs P base s2 a2 d)
  = makeAbs P base s2 a2 (makeAbs P base s1 a1 d).
Proof.
  intros Hs. rewrite !makeAbs_transform, !transform_compose_doc.
  apply list_fmap_ext. intros i n _. apply transform_ext; [| done].
  intros nm a. unfold only.
  destruct (decide (nm = s1)) as [H1 |], (decide (nm = s2)) as [H2 |]; try done.
  congruence.
Qed.

Lemma run_passes_cons pass l (d : document) :
  run_passes P base (pass :: l) d = run_passes P base l (makeAbs P base pass.1 pass.2 d).
Proof. reflexivity. Qed.

Lemma run_passes_Permutation l l' :
  l ≡ₚ l' → NoDup l.*1 → ∀ d : document, run_passes P base l d = run_passes P base l' d.
Proof.
  induction 1 as [| x l l' Hl IH | x y l | l l' l'' H1 IH1 H2 IH2]; intros Hnd d.
  - done.
  - rewrite !run_passes_cons. apply IH. cbn in Hnd. by apply NoDup_cons in Hnd as [_ Hnd].
  - rewrite !run_passes_cons. f_equal. apply makeAbs_commute.
    cbn in Hnd. apply NoDup_cons in Hnd as [Hx _]. intros Hxy. apply Hx. rewrite Hxy. left.
  - rewrite IH1 by done. apply IH2. by rewrite <- H1.
Qed.

(** ** The probe block is not rewritten *)

Lemma transform_after_append f x n :
  transform f (λ _, []) (transform (λ _ a, a) x n)
  = transform f (λ nm, transform f (λ _, []) <$> x nm) n.
Proof.
  induction n as [s|s|s|nm a cs IH] using node_ind'; try done.
  cbn [transform]. f_equal. rewrite !app_nil_r, fmap_app. f_equal.
  rewrite <- list_fmap_compose. apply Forall_fmap_ext_1.
  eapply Forall_impl; [exact IH |]. intros c Hc. exact Hc.
Qed.

Lemma injected_dom_untouched :
  transform (abs_attrs P base) (λ _, []) <$> injected_dom = injected_dom.
Proof. reflexivity. Qed.

Lemma inject_absolutize (d : document) :
  inject (absolutize P base d) = absolutize P base (inject d).
Proof.
  rewrite inject_transform, !absolutize_transform, inject_transform.
  rewrite transform_compose_doc, <- list_fmap_compose.
  apply list_fmap_ext. intros i n _. cbn. rewrite transform_after_append.
  apply transform_ext; [done |]. intros nm. unfold only.
  destruct (decide (nm = "body")); [by rewrite injected_dom_untouched | done].
Qed.

End Passes.

Lemma blank_inject (d : document) : blank (inject d) = inject (blank d).
Proof.
  unfold blank. rewrite !inject_transform, transform_compose_doc, <- list_fmap_compose.
  apply list_fmap_ext. intros i n _. cbn. rewrite transform_after_append.
  apply transform_ext; [done |]. intros nm. unfold only.
  by destruct (decide (nm = "body")).
Qed.

End PassFacts.

(** ** The probe script *)

Module ProbeFacts.
Import JsString JsStringFacts JsNumber ProxyFacts Spec Probe.

(** ** The pattern *)

Lemma toLowerCase_length s : String.length (toLowerCase s) = String.length s.
Proof. induction s as [|c s IH]; [done |]. cbn. by rewrite IH. Qed.

Lemma mp4_here_spec s :
  mp4_here s = true ↔
  ∃ e b, s = e +:+ b ∧ toLowerCase e = ".mp4" ∧ (b = "" ∨ startsWith b "?" = true).
Proof.
  unfold mp4_here. rewrite andb_true_iff.
  change ".mp4" with (toLowerCase ".mp4") at 1. rewrite startsWith_ci. split.
  - intros [(e & b & -> & He) Hb]. exists e, b. split; [done |]. split; [done |].
    assert (Hlen : String.length e = 4) by (by rewrite <- toLowerCase_length, He).
    rewrite <- Hlen, drop_app in Hb. apply orb_true_iff in Hb as [Hb | Hb]; [| by right].
    left. by apply negb_true_iff, truthy_spec_false in Hb.
  - intros (e & b & -> & He & Hb). split; [by exists e, b |].
    assert (Hlen : String.length e = 4) by (by rewrite <- toLowerCase_length, He).
    rewrite <- Hlen, drop_app. destruct Hb as [-> | ->]; [done | by rewrite orb_true_r].
Qed.

Lemma mp4_spec s :
  mp4 s = true ↔
  ∃ a e b, s = a +:+ e +:+ b ∧ toLowerCase e = ".mp4" ∧ (b = "" ∨ startsWith b "?" = true).
Proof.
  induction s as [|c s IH].
  - cbn [mp4]. rewrite orb_false_r, mp4_here_spec. split.
    + intros (e & b & H). by exists "", e, b.
    + intros (a & e & b & Hs & H). destruct a; [by exists e, b | done].
  - cbn [mp4]. rewrite orb_true_iff, IH, mp4_here_spec. split.
    + intros [(e & b & H) | (a & e & b & -> & H)]; [by exists "", e, b |].
      by exists (String c a), e, b.
    + intros (a & e & b & Hs & H). destruct a as [|d a].
      * left. by exists e, b.
      * right. injection Hs as -> ->. by exists a, e, b.
Qed.

(** ** Dropping repeated addresses *)

Lemma dedupe_step_tidy st it : tidy st → tidy (dedupe_step st it).
Proof.
  intros [Hseen Hnd]. unfold dedupe_step. destruct (decide (url it ∈ st.2)) as [Hin | Hin].
  - done.
  - split; cbn.
    + intros u. rewrite elem_of_union, elem_of_singleton, fmap_app, elem_of_app, Hseen.
      cbn. rewrite list_elem_of_singleton. tauto.
    + rewrite fmap_app. apply NoDup_app. split; [done |]. split; [| apply NoDup_singleton].
      intros u Hu Hu'. apply list_elem_of_singleton in Hu' as ->. apply Hin. by apply Hseen.
Qed.

Lemma dedupe_fold l st :
  tidy st →
  ∃ r, (fold_left dedupe_step l st).1 = st.1 ++ r
    ∧ tidy (fold_left dedupe_step l st)
    ∧ (r `sublist_of` l)
    ∧ (∀ u, u ∈ url <$> l → u ∈ url <$> st.1 ∨ u ∈ url <$> r)
    ∧ (∀ it, it ∈ r → ∃ l1 l2, l = l1 ++ it :: l2
         ∧ (url it ∉ url <$> st.1) ∧ (url it ∉ url <$> l1)).
Proof.
  revert st. induction l as [|it l IH]; intros st Hst.
  - exists []. rewrite app_nil_r. split; [done |]. split; [done |]. split; [done |]. split.
    + intros u Hu. by apply elem_of_nil in Hu.
    + intros it Hit. by apply elem_of_nil in Hit.
  - cbn [fold_left].
    destruct (IH _ (dedupe_step_tidy st it Hst)) as (r & Hr & Ht & Hsub & Hall & Hfirst).
    destruct Hst as [Hseen Hnd]. unfold dedupe_step in *.
    destruct (decide (url it ∈ st.2)) as [Hin | Hin].
    + exists r. split; [done |]. split; [done |]. split; [by apply sublist_cons |]. split.
      * intros u Hu. cbn in Hu. apply elem_of_cons in Hu as [-> | Hu]; [| by apply Hall].
        left. by apply Hseen.
      * intros it' Hit'. destruct (Hfirst it' Hit') as (l1 & l2 & -> & H1 & H2).
        exists (it :: l1), l2. split; [done |]. split; [done |].
        cbn. rewrite not_elem_of_cons. split; [| done].
        intros Heq. apply H1. rewrite Heq. by apply Hseen.
    + cbn in Hr, Hall, Hfirst. exists (it :: r). split; [by rewrite Hr, <- app_assoc |].
      split; [done |]. split; [by apply sublist_skip |]. split.
      * intros u Hu. cbn in Hu. apply elem_of_cons in Hu as [-> | Hu].
        -- right. cbn. left.
        -- destruct (Hall u Hu) as [H | H].
           ++ rewrite fmap_app in H. apply elem_of_app in H as [H | H]; [by left |].
              right. cbn in H. apply list_elem_of_singleton in H as ->. cbn. left.
           ++ right. cbn. by right.
      * intros it' Hit'. apply elem_of_cons in Hit' as [-> | Hit'].
        -- exists [], l. split; [done |]. split.
           ++ intros H. by apply Hin, Hseen.
           ++ cbn. apply not_elem_of_nil.
        -- destruct (Hfirst it' Hit') as (l1 & l2 & -> & H1 & H2).
           rewrite fmap_app, elem_of_app in H1. cbn in H1.
           exists (it :: l1), l2. split; [done |]. split; [tauto |].
           cbn. rewrite not_elem_of_cons. split; [| done].
           intros Heq. apply H1. right. rewrite Heq. left.
Qed.

Lemma tidy_start : tidy ([], ∅).
Proof.
  split; cbn; [| apply NoDup_nil_2]. intros u. rewrite elem_of_empty.
  split; [done |]. apply elem_of_nil.
Qed.

Lemma dedupe_spec l :
  NoDup (url <$> dedupe l)
  ∧ (dedupe l `sublist_of` l)
  ∧ (∀ u, u ∈ url <$> l → u ∈ url <$> dedupe l)
  ∧ (∀ it, it ∈ dedupe l → ∃ l1 l2, l = l1 ++ it :: l2 ∧ (url it ∉ url <$> l1)).
Proof.
  unfold dedupe. destruct (dedupe_fold l _ tidy_start) as (r & Hr & [_ Hnd] & Hsub & Hall & Hfirst).
  cbn in Hr. rewrite Hr in *. split; [done |]. split; [done |]. split.
  - intros u Hu. destruct (Hall u Hu) as [H | H]; [by apply elem_of_nil in H | done].
  - intros it Hit. destruct (Hfirst it Hit) as (l1 & l2 & H & _ & H2). eauto.
Qed.

Lemma dedupe_fold_NoDup l st :
  tidy st → NoDup (url <$> (st.1 ++ l)) → (fold_left dedupe_step l st).1 = st.1 ++ l.
Proof.
  revert st. induction l as [|it l IH]; intros st Hst Hnd; [by rewrite app_nil_r |].
  cbn [fold_left]. rewrite IH.
  - unfold dedupe_step. destruct (decide (url it ∈ st.2)) as [Hin | Hin].
    + exfalso. rewrite fmap_app in Hnd. apply NoDup_app in Hnd as (_ & Hdis & _).
      apply (Hdis (url it)); [by apply Hst | cbn; left].
    + cbn. by rewrite <- app_assoc.
  - by apply dedupe_step_tidy.
  - unfold dedupe_step. destruct (decide (url it ∈ st.2)) as [Hin | Hin].
    + exfalso. rewrite fmap_app in Hnd. apply NoDup_app in Hnd as (_ & Hdis & _).
      apply (Hdis (url it)); [by apply Hst | cbn; left].
    + cbn. by rewrite <- app_assoc.
Qed.

Lemma dedupe_NoDup l : NoDup (url <$> l) → dedupe l = l.
Proof. intros Hnd. unfold dedupe. by rewrite dedupe_fold_NoDup; [| apply tidy_start |]. Qed.

Lemma or_else_nonempty a b : b ≠ "" → or_else a b ≠ "".
Proof.
  intros Hb. unfold or_else. destruct a as [s|]; [| done].
  destruct (truthy s) eqn:Hs; [by apply truthy_spec | done].
Qed.

Lemma video_items_spec doc v it :
  it ∈ video_items doc v →
  chosen_src v = Some (url it) ∧ url it ≠ "" ∧ mp4 (url it) = true ∧ title it ≠ "".
Proof.
  unfold video_items. destruct (chosen_src v) as [src|]; [| by intros ?%elem_of_nil].
  destruct (truthy src && mp4 src) eqn:E; [| by intros ?%elem_of_nil].
  intros ->%list_elem_of_singleton. cbn [url title]. apply andb_true_iff in E as [Hs Hm].
  repeat split; [by apply truthy_spec | done |]. by apply or_else_nonempty, or_else_nonempty.
Qed.

Lemma anchor_items_spec doc a it :
  it ∈ anchor_items doc a →
  anchor_href a = url it ∧ url it ≠ "" ∧ mp4 (url it) = true ∧ (title it = "" → doc = "").
Proof.
  unfold anchor_items. destruct (truthy (anchor_href a) && mp4 (anchor_href a)) eqn:E;
    [| by intros ?%elem_of_nil].
  intros ->%list_elem_of_singleton. cbn [url title]. apply andb_true_iff in E as [Hs Hm].
  repeat split; [by apply truthy_spec | done |]. unfold or_else.
  destruct (truthy (trim (innerText a))) eqn:Ht; [| done].
  intros H. by apply truthy_spec in Ht.
Qed.

Lemma found_sound pg it :
  it ∈ found pg →
  url it ≠ "" ∧ mp4 (url it) = true ∧ (title it = "" → doc_title pg = "").
Proof.
  unfold found. rewrite elem_of_app, !list_elem_of_bind.
  intros [(v & Hit & _) | (a & Hit & _)].
  - destruct (video_items_spec _ _ _ Hit) as (_ & ? & ? & ?). done.
  - destruct (anchor_items_spec _ _ _ Hit) as (_ & ? & ? & ?). done.
Qed.

Lemma found_video pg v src :
  v ∈ videos pg → chosen_src v = Some src → src ≠ "" → mp4 src = true →
  src ∈ url <$> found pg.
Proof.
  intros Hv Hsrc Hne Hm. apply truthy_spec in Hne. unfold found.
  rewrite fmap_app, elem_of_app. left. apply list_elem_of_fmap.
  eexists. split; [| apply list_elem_of_bind; exists v; split; [| done]].
  2: { unfold video_items. rewrite Hsrc, Hne, Hm. cbn. left. }
  done.
Qed.

Lemma found_anchor pg a :
  a ∈ anchors pg → anchor_href a ≠ "" → mp4 (anchor_href a) = true →
  anchor_href a ∈ url <$> found pg.
Proof.
  intros Ha Hne Hm. apply truthy_spec in Hne. unfold found.
  rewrite fmap_app, elem_of_app. right. apply list_elem_of_fmap.
  eexists. split; [| apply list_elem_of_bind; exists a; split; [| done]].
  2: { unfold anchor_items. rewrite Hne, Hm. cbn. left. }
  done.
Qed.

End ProbeFacts.

(** ** The properties *)

Module Further.
Import JsString JsStringFacts JsNumber JsNumberFacts Dom DomFacts Http Url Exchange Table.
Import Proxy ProxyFacts RewriterFacts HandlerFacts TableFacts DownloadFacts PassFacts.
Import Probe ProbeFacts Spec Scenario.

(** The targets requested of the second origin are inputs the model of the
    URL class covers. *)
Lemma second_origin_covered :
  forallb (λ target, Whatwg.covered target None) targets' = true.
Proof. vm_compute. reflexivity. Qed.

(** ** Every request is answered *)

(** The proxy handler returns without an exception and with the response
    ended; the status is 200, 302, 400 or 500; at most one call is made. *)
Theorem proxy_always_answers (P : Platform) (req : NextApiRequest) :
  (Proxy.handler P req {| res := fresh; calls := [] |}).1 = Value ()
  ∧ out_body (run (Proxy.handler P req)).1 ≠ None
  ∧ statusCode (run (Proxy.handler P req)).1 ∈ [200; 302; 400; 500]%Z
  ∧ length (run (Proxy.handler P req)).2 ≤ 1.
Proof.
  split; [apply proxy_returns |].
  destruct (proxy_table P req); cbn; repeat split; try done; try lia;
    rewrite !elem_of_cons; auto 10.
Qed.

(** The download handler returns without an exception and with the response
    ended; the status is 200, 302, 400, 500 or 502; the calls made are
    none, the HEAD, or the HEAD and then the GET, each to the parameter as
    it was given. *)
Theorem download_always_answers (P : Platform) (req : NextApiRequest) :
  (Download.handler P req {| res := fresh; calls := [] |}).1 = Value ()
  ∧ out_body (run (Download.handler P req)).1 ≠ None
  ∧ statusCode (run (Download.handler P req)).1 ∈ [200; 302; 400; 500; 502]%Z
  ∧ ((run (Download.handler P req)).2 = []
     ∨ ∃ fileUrl, query_url req = Some fileUrl
         ∧ ((run (Download.handler P req)).2 = [head_call fileUrl]
            ∨ (run (Download.handler P req)).2 = [head_call fileUrl; get_call fileUrl])).
Proof.
  split; [apply download_returns |].
  destruct (download_table P req); open_guard; cbn; repeat split; try done;
    try (rewrite !elem_of_cons; auto 10); eauto.
Qed.

(** ** The headers of the answers *)

(** The headers of an answer of the proxy are none, or [Location] on the
    redirect, naming the parameter as it was given, or [Content-Type] on
    the rewritten page: no header of the origin reaches the client. *)
Theorem proxy_headers (P : Platform) (req : NextApiRequest) :
  out_headers (run (Proxy.handler P req)).1 = ∅
  ∨ (∃ target, query_url req = Some target
       ∧ statusCode (run (Proxy.handler P req)).1 = 302%Z
       ∧ out_headers (run (Proxy.handler P req)).1 = {[ "Location" := target ]})
  ∨ (statusCode (run (Proxy.handler P req)).1 = 200%Z
     ∧ out_headers (run (Proxy.handler P req)).1
       = {[ "Content-Type" := "text/html; charset=utf-8" ]}).
Proof.
  destruct (proxy_table P req); open_guard; cbn; auto.
  right. left. by exists target.
Qed.

(** The headers of an answer of the download handler are none, or
    [Location] on the redirect, naming the parameter as it was given, or
    the two of a relay: [Content-Disposition], an attachment with a quoted
    file name, and [Content-Type], never empty.  These two also stand on
    the 500 that follows a relay that failed. *)
Theorem download_headers (P : Platform) (req : NextApiRequest) :
  out_headers (run (Download.handler P req)).1 = ∅
  ∨ (∃ fileUrl, query_url req = Some fileUrl
       ∧ statusCode (run (Download.handler P req)).1 = 302%Z
       ∧ out_headers (run (Download.handler P req)).1 = {[ "Location" := fileUrl ]})
  ∨ ((statusCode (run (Download.handler P req)).1 = 200%Z
      ∨ statusCode (run (Download.handler P req)).1 = 500%Z)
     ∧ ∃ name ct, ct ≠ ""
         ∧ out_headers (run (Download.handler P req)).1
           = <[ "Content-Type" := ct ]>
             (<[ "Content-Disposition" :=
                   "attachment; filename=" +:+ Download.quote +:+ name
                   +:+ Download.quote ]> ∅)).
Proof.
  assert (Hatt : ∀ fileUrl r,
            attachment P fileUrl r = ∅
            ∨ ∃ name ct, ct ≠ ""
                ∧ attachment P fileUrl r
                  = <[ "Content-Type" := ct ]>
                    (<[ "Content-Disposition" :=
                          "attachment; filename=" +:+ Download.quote +:+ name
                          +:+ Download.quote ]> ∅)).
  { intros fileUrl r. unfold attachment, disposition.
    destruct (header_value _); [right | by left].
    eexists _, _. split; [| reflexivity].
    unfold Download.or_else. destruct (headers_get r "content-type") as [ct|]; [| done].
    destruct (truthy ct) eqn:Hct; [by apply truthy_spec | done]. }
  destruct (download_table P req) as [| | | | | | | | fileUrl r]; open_guard; cbn; auto.
  - right. left. by exists fileUrl.
  - destruct (Hatt fileUrl r) as [-> | Hpair]; auto.
Qed.

(** ** When the answer is an error *)

(** The proxy answers 500 exactly when, past its guard, the call to the
    origin fails, or the body of the answer cannot be read, or the answer
    is no HTML and the target, which the redirect would name, holds a
    character no header value may hold. *)
Theorem proxy_server_error (P : Platform) (req : NextApiRequest) :
  statusCode (run (Proxy.handler P req)).1 = 500%Z ↔
  ∃ target u, query_url req = Some target ∧ target ≠ ""
    ∧ new_URL P target None = Some u
    ∧ Proxy.local_host (hostname u) = false
    ∧ (origin P (proxy_call target) = None
       ∨ ∃ r, origin P (proxy_call target) = Some r
           ∧ (text r = None
              ∨ (includes (default "" (headers_get r "content-type")) "text/html" = false
                 ∧ header_value target = false))).
Proof.
  split.
  - destruct (proxy_table P req) as
      [ | | | target Hadm Ho | target r t Hadm Ho Htx Hct Hv | | ];
      open_guard; cbn; try done; intros _; eexists target, _; repeat (split; [done |]).
    + destruct Ho as [Ho | (r & Ho & Htx)]; [by left | right; exists r; auto].
    + right. exists r. auto.
  - intros (target & u & Hq & Hne & Hu & Hl & Ho). destruct req as [q]. cbn in Hq. subst q.
    apply truthy_spec in Hne.
    destruct Ho as [Ho | (r & Ho & [Htx | [Hct Hv]])].
    + by rewrite (proxy_rejected P target u).
    + by rewrite (proxy_unreadable P target u r).
    + destruct (text r) as [t|] eqn:Htx.
      * by rewrite (proxy_unsendable P target u r t).
      * by rewrite (proxy_unreadable P target u r).
Qed.

(** The proxy makes no call when it answers 400, and otherwise one call,
    to the parameter as it was given. *)
Theorem proxy_calls (P : Platform) (req : NextApiRequest) :
  (statusCode (run (Proxy.handler P req)).1 = 400%Z → (run (Proxy.handler P req)).2 = [])
  ∧ (statusCode (run (Proxy.handler P req)).1 ≠ 400%Z →
     ∃ target, query_url req = Some target
       ∧ (run (Proxy.handler P req)).2 = [proxy_call target]).
Proof.
  destruct (proxy_table P req); open_guard; cbn; split; try done; intros _; by exists target.
Qed.

(** The download handler answers 500 exactly when the parameter is no
    URL; when the HEAD fails; when the size gate decides for the redirect
    and the parameter, which the redirect would name, holds a character no
    header value may hold; when the GET fails; and whenever the GET is
    answered with a success. *)
Theorem download_server_error (P : Platform) (req : NextApiRequest) :
  statusCode (run (Download.handler P req)).1 = 500%Z ↔
  ∃ fileUrl, query_url req = Some fileUrl ∧ fileUrl ≠ ""
    ∧ (new_URL P fileUrl None = None
       ∨ (∃ u, new_URL P fileUrl None = Some u
            ∧ Download.local_host (hostname u) = false
            ∧ (origin P (head_call fileUrl) = None
               ∨ ∃ head, origin P (head_call fileUrl) = Some head
                   ∧ Download.over_threshold (headers_get head "content-length") = true
                   ∧ header_value fileUrl = false))
       ∨ (relays P fileUrl
          ∧ (origin P (get_call fileUrl) = None
             ∨ ∃ r, origin P (get_call fileUrl) = Some r ∧ ok r = true))).
Proof.
  split.
  - destruct (download_table P req) as
      [ H | fileUrl Hq Hne Hu | fileUrl u Hq Hne Hu Hl | fileUrl Hadm Ho
      | fileUrl head Hadm Ho Hcl Hv | fileUrl head Hadm Ho Hcl Hv
      | fileUrl Hq Hrel Hg | fileUrl r Hq Hrel Hg Hok | fileUrl r Hq Hrel Hg Hok ];
      open_guard; cbn; try done; intros _;
      exists fileUrl; (split; [done |]); (split; [done || apply Hrel |]).
    + by left.
    + right. left. eexists. split; [done |]. split; [done |]. by left.
    + right. left. eexists. split; [done |]. split; [done |]. right. by exists head.
    + right. right. split; [done |]. by left.
    + right. right. split; [done |]. right. by exists r.
  - intros (fileUrl & Hq & Hne & H). destruct req as [q]. cbn in Hq. subst q.
    pose proof Hne as Ht. apply truthy_spec in Ht.
    destruct H as [Hu | [(u & Hu & Hl & Ho) | [(_ & u & head & Hu & Hl & Ho & Hcl) Hg]]].
    + by rewrite (download_invalid P fileUrl).
    + destruct Ho as [Ho | (head & Ho & Hcl & Hv)].
      * by rewrite (download_head_rejected P fileUrl u).
      * by rewrite (download_unsendable P fileUrl u head).
    + destruct Hg as [Hg | (r & Hg & Hok)].
      * by rewrite (download_get_rejected P fileUrl u head).
      * by rewrite (download_relay_failed P fileUrl u head r).
Qed.

(** The download handler never answers 200: no request is answered with
    the file. *)
Theorem download_never_delivers (P : Platform) (req : NextApiRequest) :
  statusCode (run (Download.handler P req)).1 ≠ 200%Z.
Proof. destruct (download_table P req); open_guard; cbn; done. Qed.

(** ** The relay, where the body is no Node.js stream *)

(** Past the HEAD: a GET that fails is answered 500 before any header is
    set; and a body that is a WHATWG stream, which offers [getReader] and
    no [pipe], is locked by the reader taken from it, so that the buffered
    fallback fails on it whether or not the buffer could be read, and the
    answer is 500 after the attachment headers are set. *)
Theorem download_fallback (P : Platform) fileUrl :
  relays P fileUrl →
  (origin P (get_call fileUrl) = None →
   run (Download.handler P {| query_url := Some fileUrl |})
   = (reply 500 ∅ "Download error", [head_call fileUrl; get_call fileUrl]))
  ∧ (∀ r b, origin P (get_call fileUrl) = Some r → ok r = true → body r = Some b →
       stream b = WebReadable →
       run (Download.handler P {| query_url := Some fileUrl |})
       = (reply 500 (attachment P fileUrl r) "Download error",
          [head_call fileUrl; get_call fileUrl])).
Proof.
  intros (Hne & u & head & Hu & Hl & Ho & Hcl). apply truthy_spec in Hne.
  split; [intros Hg; by apply (download_get_rejected P fileUrl u head) |].
  intros r b Hg Hok Hb Hs. by apply (download_relay_failed P fileUrl u head r).
Qed.

Lemma download_fallback_witness :
  run (Download.handler world' {| query_url := Some "https://example.com/gone.bin" |})
  = (reply 500 ∅ "Download error",
     [head_call "https://example.com/gone.bin"; get_call "https://example.com/gone.bin"])
  ∧ arrayBuffer (stream_response
                   {| stream := WebReadable; bytes := "bytes"; locked := false |}
                   (Some "bytes")) = Some "bytes"
  ∧ run (Download.handler world' {| query_url := Some "https://example.com/web.bin" |})
    = (reply 500
         (<[ "Content-Type" := "application/octet-stream" ]>
          (<[ "Content-Disposition" :=
                "attachment; filename=" +:+ Download.quote +:+ "web.bin"
                +:+ Download.quote ]> ∅))
         "Download error",
       [head_call "https://example.com/web.bin"; get_call "https://example.com/web.bin"]).
Proof.
  split; [| split; [reflexivity |]].
  - apply (proj1 (download_fallback world' "https://example.com/gone.bin"
                    ltac:(split; [done | eexists _, _; repeat split; vm_compute; reflexivity])));
      vm_compute; reflexivity.
  - refine (eq_trans (proj2 (download_fallback world' "https://example.com/web.bin"
                    ltac:(split; [done | eexists _, _; repeat split; vm_compute; reflexivity]))
             _ {| stream := WebReadable; bytes := "bytes"; locked := false |}
             ltac:(vm_compute; reflexivity) eq_refl eq_refl eq_refl) _).
    vm_compute. reflexivity.
Defined.

(** ** The file name *)

(** The file name of a download is what stands after the last slash of the
    path of the target, decoded; it is [download] when nothing stands
    there, and when decoding throws. *)
Theorem filename_last_segment (P : Platform) fileUrl u seg :
  new_URL P fileUrl None = Some u →
  includes seg "/" = false →
  (pathname u = seg ∨ ∃ t, pathname u = t +:+ "/" +:+ seg) →
  Download.filename_of P fileUrl
  = if truthy seg then default "download" (decodeURIComponent P seg) else "download".
Proof.
  intros Hu Hseg Hp. unfold Download.filename_of. rewrite Hu. cbn [mbind option_bind].
  assert (pop (split (pathname u) "/") = Some seg) as ->.
  { destruct Hp as [-> | [t ->]]; [by apply pop_split_whole | by apply pop_split_after]. }
  by destruct (truthy seg).
Qed.

Lemma filename_last_segment_witness :
  Download.filename_of world "https://host/path/to/movie.mp4" = "movie.mp4"
  ∧ Download.filename_of world "https://host/" = "download".
Proof.
  split.
  - refine (filename_last_segment world "https://host/path/to/movie.mp4"
              {| href := "https://host/path/to/movie.mp4"; protocol := "https:";
                 hostname := "host"; pathname := "/path/to/movie.mp4" |}
              "movie.mp4" _ _ _); [vm_compute; reflexivity | reflexivity |].
    right. by exists "/path/to".
  - refine (filename_last_segment world "https://host/"
              {| href := "https://host/"; protocol := "https:";
                 hostname := "host"; pathname := "/" |}
              "" _ _ _); [vm_compute; reflexivity | reflexivity |].
    right. by exists "".
Defined.

(** ** The size gate *)

(** Past the guard and with an answer to the HEAD whose content length, if
    any, is a run of digits: a length above 30 * 1024 * 1024 ends the
    exchange after the HEAD alone, with the redirect to the parameter as it
    was given when that is a header value, and with 500 when it is not,
    [writeHead] throwing on it; a length up to the threshold, or none, makes
    the handler issue the GET, and the answer is then 502 or 500. *)
Theorem size_gate_decides (P : Platform) fileUrl u head :
  fileUrl ≠ "" →
  new_URL P fileUrl None = Some u →
  Download.local_host (hostname u) = false →
  origin P (head_call fileUrl) = Some head →
  from_option (λ cl, all_digits cl = true) True (headers_get head "content-length") →
  let over :=
    ∃ cl, headers_get head "content-length" = Some cl
          ∧ (30 * 1024 * 1024 < decimal_value cl)%Z in
  (over → header_value fileUrl = true →
   run (Download.handler P {| query_url := Some fileUrl |})
   = (reply 302 {[ "Location" := fileUrl ]} "", [head_call fileUrl]))
  ∧ (over → header_value fileUrl = false →
     run (Download.handler P {| query_url := Some fileUrl |})
     = (reply 500 ∅ "Download error", [head_call fileUrl]))
  ∧ (¬ over →
     (run (Download.handler P {| query_url := Some fileUrl |})).2
     = [head_call fileUrl; get_call fileUrl]
     ∧ statusCode (run (Download.handler P {| query_url := Some fileUrl |})).1
       ∈ [500; 502]%Z).
Proof.
  intros Hne Hu Hl Ho Hd over. apply truthy_spec in Hne.
  assert (Hov : Download.over_threshold (headers_get head "content-length") = true ↔ over).
  { unfold over. destruct (headers_get head "content-length") as [cl|] eqn:Hcl.
    - cbn in Hd. destruct (decide (cl = "")) as [-> | Hcne].
      + split; [done |]. intros (cl & [= <-] & Hlt). vm_compute in Hlt. done.
      + rewrite (over_threshold_decimal cl Hcne Hd), bool_decide_eq_true.
        unfold Download.threshold. split; [intros Hlt; by exists cl |].
        by intros (cl' & [= <-] & Hlt).
    - split; [done |]. by intros (cl & [=] & _). }
  split; [| split].
  - intros Hover Hv. apply Hov in Hover. by apply (download_redirect P fileUrl u head).
  - intros Hover Hv. apply Hov in Hover. by apply (download_unsendable P fileUrl u head).
  - intros Hunder.
    assert (Hcl : Download.over_threshold (headers_get head "content-length") = false).
    { apply not_true_is_false. intros E. by apply Hunder, Hov. }
    split; [by apply (download_fetches_twice P fileUrl u head) |].
    destruct (origin P (get_call fileUrl)) as [r|] eqn:Hg.
    + destruct (ok r) eqn:Hok.
      * rewrite (download_relay_failed P fileUrl u head r) by done.
        cbn. rewrite !elem_of_cons. auto.
      * rewrite (download_bad_gateway P fileUrl u head r) by done.
        cbn. rewrite !elem_of_cons. auto.
    + rewrite (download_get_rejected P fileUrl u head) by done.
      cbn. rewrite !elem_of_cons. auto.
Qed.

Lemma size_gate_decides_witness :
  decimal_value "32505856" = (31 * 1024 * 1024)%Z
  ∧ run (Download.handler world {| query_url := Some "https://example.com/big.bin" |})
    = (reply 302 {[ "Location" := "https://example.com/big.bin" ]} "",
       [head_call "https://example.com/big.bin"])
  ∧ run (Download.handler world' {| query_url := Some broken_file |})
    = (reply 500 ∅ "Download error", [head_call broken_file]).
Proof.
  split; [reflexivity | split].
  - refine (proj1
      (size_gate_decides world "https://example.com/big.bin"
         {| href := "https://example.com/big.bin"; protocol := "https:";
            hostname := "example.com"; pathname := "/big.bin" |}
         (head_response (Some "32505856")) _ _ _ _ _) _ _);
      first [done | vm_compute; reflexivity | idtac].
    exists "32505856". split; [vm_compute; reflexivity | vm_compute; reflexivity].
  - refine (proj1 (proj2
      (size_gate_decides world' broken_file
         {| href := "https://example.com/big.bin"; protocol := "https:";
            hostname := "example.com"; pathname := "/big.bin" |}
         (head_response (Some "32505856")) _ _ _ _ _)) _ _);
      first [done | vm_compute; reflexivity | idtac].
    exists "32505856". split; [vm_compute; reflexivity | vm_compute; reflexivity].
Defined.

(** ** The rewriter *)

(** The attribute pass changes the values of the references and nothing
    else: no node and no attribute is added or removed, no text and no
    other attribute is changed.  The rewriter as a whole changes those
    values and appends the probe block. *)
Theorem rewriter_changes_references_only (P : Platform) (base : URL) (d : document) :
  blank (absolutize P base d) = blank d
  ∧ blank (rewrite_page P base d) = inject (blank d).
Proof.
  split; [apply blank_absolutize |].
  unfold rewrite_page. by rewrite blank_inject, blank_absolutize.
Qed.

(** The six calls of [makeAbs] may be made in any order: each rewrites
    the elements of its own tag. *)
Theorem passes_any_order (P : Platform) (base : URL) l (d : document) :
  l ≡ₚ passes → run_passes P base l d = absolutize P base d.
Proof.
  intros Hl. rewrite (run_passes_Permutation P base l passes Hl); [done |].
  rewrite Hl. apply (bool_decide_unpack _). by vm_compute.
Qed.

Lemma passes_any_order_witness :
  run_passes world page_base (reverse passes) page_dom = absolutize world page_base page_dom.
Proof.
  apply (passes_any_order world page_base (reverse passes) page_dom), reverse_Permutation.
Defined.

(** Injecting the probe block and rewriting the references are
    independent: the block has no attribute the pass looks at, so rewriting
    after the injection gives the page the handler sends. *)
Theorem probe_block_not_rewritten (P : Platform) (base : URL) (d : document) :
  absolutize P base (inject d) = rewrite_page P base d.
Proof. unfold rewrite_page. by rewrite inject_absolutize. Qed.

(** ** The probe script *)

(** The pattern of the probe matches an address exactly when [.mp4], in
    either case, stands at its end or before a question mark. *)
Theorem mp4_pattern s :
  mp4 s = true ↔
  ∃ a e b, s = a +:+ e +:+ b ∧ toLowerCase e = ".mp4" ∧ (b = "" ∨ ∃ q, b = "?" +:+ q).
Proof.
  rewrite mp4_spec. split; intros (a & e & b & Hs & He & Hb); exists a, e, b;
    (split; [done |]); (split; [done |]); destruct Hb as [Hb | Hb]; auto; right.
  - by apply startsWith_spec in Hb.
  - by apply startsWith_spec.
Qed.

(** Of the entries with one address the first is kept: the list that is
    posted repeats no address, keeps the order of the entries, holds every
    address that was found, and holds of each the entry found first; a list
    without repeated addresses is posted as it is. *)
Theorem dedupe_keeps_first l :
  NoDup (url <$> dedupe l)
  ∧ (dedupe l `sublist_of` l)
  ∧ (∀ u, u ∈ url <$> l ↔ u ∈ url <$> dedupe l)
  ∧ (∀ it, it ∈ dedupe l → ∃ l1 l2, l = l1 ++ it :: l2 ∧ (url it ∉ url <$> l1))
  ∧ (NoDup (url <$> l) → dedupe l = l)
  ∧ dedupe (dedupe l) = dedupe l.
Proof.
  destruct (dedupe_spec l) as (Hnd & Hsub & Hall & Hfirst).
  split; [done |]. split; [done |]. split; [| split; [done |]; split].
  - intros u. split; [apply Hall |]. intros (it & -> & Hit)%list_elem_of_fmap.
    apply list_elem_of_fmap_2. by apply (elem_of_sublist _ _ _ Hit).
  - apply dedupe_NoDup.
  - by apply dedupe_NoDup.
Qed.

(** What [findMedia] posts: no address twice; only addresses that are not
    empty and match the pattern; the address of every video and of every
    anchor that has such an address; a title that is empty only when the
    document has no title; and, for an address a video has, the entry of a
    video, not that of an anchor. *)
Theorem findMedia_posts (pg : Page) :
  NoDup (url <$> findMedia pg)
  ∧ (∀ it, it ∈ findMedia pg →
       url it ≠ "" ∧ mp4 (url it) = true ∧ (title it = "" → doc_title pg = ""))
  ∧ (∀ v src, v ∈ videos pg → chosen_src v = Some src → src ≠ "" → mp4 src = true →
       src ∈ url <$> findMedia pg)
  ∧ (∀ a, a ∈ anchors pg → anchor_href a ≠ "" → mp4 (anchor_href a) = true →
       anchor_href a ∈ url <$> findMedia pg)
  ∧ (∀ it v, it ∈ findMedia pg → v ∈ videos pg → chosen_src v = Some (url it) →
       it ∈ videos pg ≫= video_items (doc_title pg)).
Proof.
  unfold findMedia. destruct (dedupe_spec (found pg)) as (Hnd & Hsub & Hall & Hfirst).
  split; [done |]. split; [| split; [| split]].
  - intros it Hit. apply found_sound. by apply (elem_of_sublist _ _ _ Hit).
  - intros v src Hv Hsrc Hne Hm. by apply Hall, (found_video pg v).
  - intros a Ha Hne Hm. by apply Hall, found_anchor.
  - intros it v Hit Hv Hsrc.
    destruct (found_sound pg it (elem_of_sublist _ _ _ Hit Hsub)) as (Hne & Hm & _).
    destruct (Hfirst it Hit) as (l1 & l2 & Hl & Hl1). unfold found in Hl.
    apply app_eq_inv in Hl as [(k & Hv' & Ha) | (k & -> & Ha)].
    + rewrite Hv'. apply elem_of_app. right. destruct k as [|it' k]; [| injection Ha as -> _; left].
      exfalso. apply Hl1. rewrite app_nil_r in Hv'. rewrite <- Hv'.
      apply list_elem_of_fmap. apply truthy_spec in Hne.
      exists {| url := url it;
                title := or_else (title_attr v) (or_else (Some (doc_title pg)) "video") |}.
      split; [done |]. apply list_elem_of_bind. exists v. split; [| done].
      unfold video_items. rewrite Hsrc, Hne, Hm. left.
    + exfalso. apply Hl1. rewrite fmap_app. apply elem_of_app. left.
      apply list_elem_of_fmap. apply truthy_spec in Hne.
      exists {| url := url it;
                title := or_else (title_attr v) (or_else (Some (doc_title pg)) "video") |}.
      split; [done |]. apply list_elem_of_bind. exists v. split; [| done].
      unfold video_items. rewrite Hsrc, Hne, Hm. left.
Qed.

End Further.
